(** * Kaleidoscope front end: lexer, parser and code generator of [main.cpp]

    A shallow embedding of the program's functions over an explicit record
    of its global variables, and the properties of the specification that
    were checked against it.

    Conventions of the embedding:
    - [int] values (characters, tokens, precedences) are integers of [Z];
      the only arithmetic of the program is [TokPrec+1] on a table entry.
    - a pointer that may be null is an [option]: [None] is [nullptr].
    - the standard streams are part of the state: [stdin] is the text not
      yet read, [stdout] and [stderr] are the chunks written so far.
    - [double] and the conversion [strtod] are parameters of the
      development: no property below depends on a floating-point value.
    - the code generation backend (LLVM) is not part of the program; each
      request to the instruction builder is recorded as one instruction in
      the order of the requests, and a module is the list of the functions
      created in it. *)

From stdpp Require Import gmap strings list.
From Stdlib Require Import Ascii ZArith Lia.

Local Open Scope Z_scope.
Set Warnings "-register-all".

(** ** Characters *)

Definition Z_of_ascii (a : ascii) : Z := Z.of_N (N_of_ascii a).

(** Conversion of an [int] to the [char] stored in a [std::string]. *)
Definition ascii_of_Z (c : Z) : ascii := ascii_of_N (Z.to_N (c mod 256)).

(** Conversion of an [int] to a (signed) [char], as in [char Op] and in the
    key of [std::map<char,int>]. *)
Definition char_of_int (c : Z) : Z := (c + 128) mod 256 - 128.

(** Character literal. *)
Definition ch (a : ascii) : Z := Z_of_ascii a.

Definition EOF : Z := -1.

(** <cctype> in the "C" locale; all of them are false on [EOF]. *)
Definition isspace (c : Z) : bool := ((9 <=? c) && (c <=? 13)) || (c =? 32).
Definition isdigit (c : Z) : bool := (48 <=? c) && (c <=? 57).
Definition isalpha (c : Z) : bool :=
  ((65 <=? c) && (c <=? 90)) || ((97 <=? c) && (c <=? 122)).
Definition isalnum (c : Z) : bool := isalpha c || isdigit c.
Definition isascii (c : Z) : bool := (0 <=? c) && (c <=? 127).

(** ** Tokens: [enum Token] *)

Definition tok_eof : Z := -1.
Definition tok_def : Z := -2.
Definition tok_extern : Z := -3.
Definition tok_identifier : Z := -4.
Definition tok_number : Z := -5.

(** ** The backend's data, as far as the program names it *)

Inductive Type_ : Type := DoubleTy | Int1Ty.

Record FunctionType : Type := mkFunctionType {
  ReturnTy : Type_;
  ParamTys : list Type_;
  isVarArg : bool
}.

Inductive LinkageTypes : Type := ExternalLinkage | InternalLinkage.

Record Function : Type := mkFunction {
  FnTy : FunctionType;
  FnLinkage : LinkageTypes;
  FnName : string
}.

Definition arg_size (F : Function) : nat := length (ParamTys (FnTy F)).

(** A module holds the functions created in it, oldest first. *)
Definition Module_ : Type := list Function.

(** [Module::getFunction]: the function registered under the name. The
    backend keeps the name for the first function created with it, so the
    oldest one is found. *)
Fixpoint getFunction (M : Module_) (Name : string) : option Function :=
  match M with
  | [] => None
  | F :: M' => if String.eqb (FnName F) Name then Some F else getFunction M' Name
  end.

(** What a call hands back to its caller: the operand of the [return]
    statement it ends with, or nothing when control reaches the closing
    brace of the body. *)
Inductive Returned (A : Type) : Type :=
| ReturnValue (a : A)
| NoReturn.
Arguments ReturnValue {A} a.
Arguments NoReturn {A}.

(** A stand-in for [strtod] in the examples: the numeral's text itself,
    with [string] in the place of [double]. *)
Definition numeral_text (NumStr : string) : string := NumStr.

Section Kaleidoscope.

Variable double : Type.
Variable strtod : string -> double.

(** A [Value*] that is not null: a constant, the result of the [n]-th
    instruction the builder inserted, or a function argument. *)
Inductive Value : Type :=
| ConstantFP (Val : double)
| InstResult (n : nat)
| Argument (ArgNo : nat).

Inductive Instruction : Type :=
| FAdd (L R : Value) (Name : string)
| FSub (L R : Value) (Name : string)
| FMul (L R : Value) (Name : string)
| FCmpULT (L R : Value) (Name : string)
| UIToFP (V : Value) (DestTy : Type_) (Name : string)
| Call (Callee : Function) (Args : list Value) (Name : string).

(** ** AST *)

Inductive ExprAST : Type :=
| NumberExprAST (Val : double)
| VariableExprAST (Name : string)
| BinaryExprAST (Op : Z) (LHS RHS : ExprAST)
| CallExprAST (Callee : string) (Args : list ExprAST).

Record PrototypeAST : Type := mkPrototypeAST {
  ProtoName : string;
  ProtoArgs : list string
}.

Record FunctionAST : Type := mkFunctionAST {
  Proto : PrototypeAST;
  Body : ExprAST
}.

(** ** The global variables and the standard streams *)

Record State : Type := mkState {
  stdin : string;
  stdout : list string;
  stderr : list string;
  LastChar : Z;                            (* static in gettok *)
  IdentifierStr : string;
  NumVal : double;
  CurTok : Z;
  BinopPrecedence : gmap Z Z;              (* std::map<char, int> *)
  TheModule : option Module_;              (* std::unique_ptr<Module> *)
  Builder : list Instruction;              (* instructions inserted so far *)
  NamedValues : gmap string (option Value) (* std::map<std::string, Value*> *)
}.

Definition set_stdin (v : string) (s : State) : State :=
  mkState v (stdout s) (stderr s) (LastChar s) (IdentifierStr s) (NumVal s)
    (CurTok s) (BinopPrecedence s) (TheModule s) (Builder s) (NamedValues s).
Definition put_stdout (v : string) (s : State) : State :=
  mkState (stdin s) (stdout s ++ [v]) (stderr s) (LastChar s) (IdentifierStr s)
    (NumVal s) (CurTok s) (BinopPrecedence s) (TheModule s) (Builder s)
    (NamedValues s).
Definition put_stderr (v : string) (s : State) : State :=
  mkState (stdin s) (stdout s) (stderr s ++ [v]) (LastChar s) (IdentifierStr s)
    (NumVal s) (CurTok s) (BinopPrecedence s) (TheModule s) (Builder s)
    (NamedValues s).
Definition set_LastChar (v : Z) (s : State) : State :=
  mkState (stdin s) (stdout s) (stderr s) v (IdentifierStr s) (NumVal s)
    (CurTok s) (BinopPrecedence s) (TheModule s) (Builder s) (NamedValues s).
Definition set_IdentifierStr (v : string) (s : State) : State :=
  mkState (stdin s) (stdout s) (stderr s) (LastChar s) v (NumVal s)
    (CurTok s) (BinopPrecedence s) (TheModule s) (Builder s) (NamedValues s).
Definition set_NumVal (v : double) (s : State) : State :=
  mkState (stdin s) (stdout s) (stderr s) (LastChar s) (IdentifierStr s) v
    (CurTok s) (BinopPrecedence s) (TheModule s) (Builder s) (NamedValues s).
Definition set_CurTok (v : Z) (s : State) : State :=
  mkState (stdin s) (stdout s) (stderr s) (LastChar s) (IdentifierStr s)
    (NumVal s) v (BinopPrecedence s) (TheModule s) (Builder s) (NamedValues s).
Definition set_BinopPrecedence (v : gmap Z Z) (s : State) : State :=
  mkState (stdin s) (stdout s) (stderr s) (LastChar s) (IdentifierStr s)
    (NumVal s) (CurTok s) v (TheModule s) (Builder s) (NamedValues s).
Definition set_TheModule (v : option Module_) (s : State) : State :=
  mkState (stdin s) (stdout s) (stderr s) (LastChar s) (IdentifierStr s)
    (NumVal s) (CurTok s) (BinopPrecedence s) v (Builder s) (NamedValues s).
Definition set_Builder (v : list Instruction) (s : State) : State :=
  mkState (stdin s) (stdout s) (stderr s) (LastChar s) (IdentifierStr s)
    (NumVal s) (CurTok s) (BinopPrecedence s) (TheModule s) v (NamedValues s).
Definition set_NamedValues (v : gmap string (option Value)) (s : State) : State :=
  mkState (stdin s) (stdout s) (stderr s) (LastChar s) (IdentifierStr s)
    (NumVal s) (CurTok s) (BinopPrecedence s) (TheModule s) (Builder s) v.

(** ** Lexer *)

(** [getchar()]: the next character of the stream, [EOF] once it is
    exhausted (and then on every later call). *)
Definition getchar (s : State) : Z * State :=
  match stdin s with
  | EmptyString => (EOF, s)
  | String a rest => (Z_of_ascii a, set_stdin rest s)
  end.

(** [while (isspace(LastChar)) LastChar = getchar();] on the pair of
    [LastChar] and the unread text. At the end of the text [getchar] gives
    [EOF], which is not a space, and the loop ends. *)
Fixpoint skip_spaces (c : Z) (inp : string) : Z * string :=
  if isspace c then
    match inp with
    | EmptyString => (EOF, EmptyString)
    | String a rest => skip_spaces (Z_of_ascii a) rest
    end
  else (c, inp).

(** [while (isalnum((LastChar = getchar()))) IdentifierStr += LastChar;] *)
Fixpoint read_identifier (Str : string) (inp : string) : string * Z * string :=
  match inp with
  | EmptyString => (Str, EOF, EmptyString)
  | String a rest =>
      if isalnum (Z_of_ascii a)
      then read_identifier (Str +:+ String a EmptyString) rest
      else (Str, Z_of_ascii a, rest)
  end.

(** [do { NumStr += LastChar; LastChar = getchar(); }
     while (isdigit(LastChar) || LastChar == '.');] *)
Fixpoint read_number (NumStr : string) (c : Z) (inp : string) : string * Z * string :=
  let NumStr' := NumStr +:+ String (ascii_of_Z c) EmptyString in
  match inp with
  | EmptyString => (NumStr', EOF, EmptyString)
  | String a rest =>
      if isdigit (Z_of_ascii a) || (Z_of_ascii a =? ch ".")
      then read_number NumStr' (Z_of_ascii a) rest
      else (NumStr', Z_of_ascii a, rest)
  end.

(** [do LastChar = getchar();
     while (LastChar != EOF && LastChar != '\n' && LastChar != '\r');] *)
Fixpoint skip_line (inp : string) : Z * string :=
  match inp with
  | EmptyString => (EOF, EmptyString)
  | String a rest =>
      let c := Z_of_ascii a in
      if negb (c =? EOF) && negb (c =? 10) && negb (c =? 13)
      then skip_line rest
      else (c, rest)
  end.

(** The end of [gettok], from [if (LastChar == EOF)] on. *)
Definition gettok_char (s : State) : Z * State :=
  if LastChar s =? EOF then (tok_eof, s)
  else
    let ThisChar := LastChar s in
    let (c, s1) := getchar s in
    (ThisChar, set_LastChar c s1).

(** [gettok]. The call of itself after a comment is the only recursion; it
    is counted by [fuel], and [None] is "out of fuel". *)
Fixpoint gettok_rec (fuel : nat) (s : State) : option (Z * State) :=
  match fuel with
  | O => None
  | S fuel' =>
      let (c, inp) := skip_spaces (LastChar s) (stdin s) in
      let s := set_LastChar c (set_stdin inp s) in
      if isalpha c then
        let '(Str, c', inp') :=
          read_identifier (String (ascii_of_Z c) EmptyString) inp in
        let s := set_LastChar c' (set_stdin inp' (set_IdentifierStr Str s)) in
        if String.eqb Str "def" then Some (tok_def, s)
        else if String.eqb Str "extern" then Some (tok_extern, s)
        else Some (tok_identifier, s)
      else if isdigit c || (c =? ch ".") then
        let '(NumStr, c', inp') := read_number EmptyString c inp in
        let s := set_LastChar c' (set_stdin inp' s) in
        Some (tok_number, set_NumVal (strtod NumStr) s)
      else if c =? ch "#" then
        let (c', inp') := skip_line inp in
        let s := set_LastChar c' (set_stdin inp' s) in
        if negb (c' =? EOF) then gettok_rec fuel' s
        else Some (gettok_char s)
      else Some (gettok_char s)
  end.

(** One more than the number of unread characters is always enough fuel
    (lemma [gettok_rec_enough]), so [gettok] is total and its second
    branch is never taken. *)
Definition gettok (s : State) : Z * State :=
  match gettok_rec (S (String.length (stdin s))) s with
  | Some r => r
  | None => (tok_eof, s)
  end.

Definition getNextToken (s : State) : Z * State :=
  let (t, s1) := gettok s in (t, set_CurTok t s1).

(** ** Diagnostics *)

Definition nl : string := String "010"%char EmptyString.

(** [LogError]: one line on [stderr], and a null pointer. [LogErrorP] and
    [LogErrorV] are the same at the other pointer types. *)
Definition LogError {A : Type} (Str : string) (s : State) : option A * State :=
  (None, put_stderr ("LogError: " +:+ Str +:+ nl) s).

Definition LogErrorP (Str : string) (s : State) : option PrototypeAST * State :=
  LogError Str s.

Definition LogErrorV (Str : string) (s : State) : option Value * State :=
  LogError Str s.

(** ** Parser *)

(** [std::map::operator[]]: the value under the key; a key that is absent
    is first inserted with the value-initialised [dflt]. *)
Definition map_subscript {K : Type} `{Countable K} {V : Type}
    (dflt : V) (m : gmap K V) (k : K) : V * gmap K V :=
  match m !! k with
  | Some v => (v, m)
  | None => (dflt, <[k := dflt]> m)
  end.

Definition GetTokPrecedence (s : State) : Z * State :=
  if negb (isascii (CurTok s)) then (-1, s)
  else
    let (TokPrec, m) :=
      map_subscript 0 (BinopPrecedence s) (char_of_int (CurTok s)) in
    let s1 := set_BinopPrecedence m s in
    if TokPrec <=? 0 then (-1, s1) else (TokPrec, s1).

Definition ParseNumberExpr (s : State) : option ExprAST * State :=
  let Result := NumberExprAST (NumVal s) in
  let (_, s1) := getNextToken s in
  (Some Result, s1).

(** The recursive descent. Every call of one parsing function by another
    takes one unit of [fuel]; the outer [None] is "out of fuel", the inner
    one is the null pointer of a failed parse. [ParseCallArgs] is the
    [while (1)] loop of [ParseIdentifierExpr], and the recursion of
    [ParseBinOpRHS] on the same [ExprPrec] is its [while (1)] loop. *)
Fixpoint ParseExpression (fuel : nat) (s : State) {struct fuel}
    : option (option ExprAST * State) :=
  match fuel with
  | O => None
  | S fuel =>
      match ParsePrimary fuel s with
      | None => None
      | Some (None, s1) => Some (None, s1)
      | Some (Some LHS, s1) => ParseBinOpRHS fuel 0 LHS s1
      end
  end

with ParseParenExpr (fuel : nat) (s : State) {struct fuel}
    : option (option ExprAST * State) :=
  match fuel with
  | O => None
  | S fuel =>
      let (_, s1) := getNextToken s in (* eat ( *)
      match ParseExpression fuel s1 with
      | None => None
      | Some (None, s2) => Some (None, s2)
      | Some (Some V, s2) =>
          if negb (CurTok s2 =? ch ")") then Some (LogError "expected ')'" s2)
          else
            let (_, s3) := getNextToken s2 in (* eat ) *)
            Some (Some V, s3)
      end
  end

with ParseIdentifierExpr (fuel : nat) (s : State) {struct fuel}
    : option (option ExprAST * State) :=
  match fuel with
  | O => None
  | S fuel =>
      let IdName := IdentifierStr s in
      let (_, s1) := getNextToken s in
      if negb (CurTok s1 =? ch "(") then Some (Some (VariableExprAST IdName), s1)
      else
        let (_, s2) := getNextToken s1 in (* eat ( *)
        if negb (CurTok s2 =? ch ")") then
          match ParseCallArgs fuel [] s2 with
          | None => None
          | Some (None, s3) => Some (None, s3)
          | Some (Some Args, s3) =>
              let (_, s4) := getNextToken s3 in (* eat ) *)
              Some (Some (CallExprAST IdName Args), s4)
          end
        else
          let (_, s4) := getNextToken s2 in (* eat ) *)
          Some (Some (CallExprAST IdName []), s4)
  end

with ParseCallArgs (fuel : nat) (Args : list ExprAST) (s : State) {struct fuel}
    : option (option (list ExprAST) * State) :=
  match fuel with
  | O => None
  | S fuel =>
      match ParseExpression fuel s with
      | None => None
      | Some (None, s1) => Some (None, s1)
      | Some (Some Arg, s1) =>
          let Args := Args ++ [Arg] in
          if CurTok s1 =? ch ")" then Some (Some Args, s1)
          else if negb (CurTok s1 =? ch ",") then
            match LogError (A := ExprAST) "Expected ')' or ',' in argument list." s1 with
            | (_, s2) => Some (None, s2)
            end
          else
            let (_, s2) := getNextToken s1 in
            ParseCallArgs fuel Args s2
      end
  end

with ParsePrimary (fuel : nat) (s : State) {struct fuel}
    : option (option ExprAST * State) :=
  match fuel with
  | O => None
  | S fuel =>
      if CurTok s =? tok_identifier then ParseIdentifierExpr fuel s
      else if CurTok s =? tok_number then Some (ParseNumberExpr s)
      else if CurTok s =? ch "(" then ParseParenExpr fuel s
      else Some (LogError "unknown token when expecting an expression" s)
  end

with ParseBinOpRHS (fuel : nat) (ExprPrec : Z) (LHS : ExprAST) (s : State)
    {struct fuel} : option (option ExprAST * State) :=
  match fuel with
  | O => None
  | S fuel =>
      let (TokPrec, s1) := GetTokPrecedence s in
      if TokPrec <? ExprPrec then Some (Some LHS, s1)
      else
        let BinOp := CurTok s1 in
        let (_, s2) := getNextToken s1 in (* eat binop *)
        match ParsePrimary fuel s2 with
        | None => None
        | Some (None, s3) => Some (None, s3)
        | Some (Some RHS, s3) =>
            let (NextPrec, s4) := GetTokPrecedence s3 in
            if TokPrec <? NextPrec then
              match ParseBinOpRHS fuel (TokPrec + 1) RHS s4 with
              | None => None
              | Some (None, s5) => Some (None, s5)
              | Some (Some RHS', s5) =>
                  ParseBinOpRHS fuel ExprPrec
                    (BinaryExprAST (char_of_int BinOp) LHS RHS') s5
              end
            else
              ParseBinOpRHS fuel ExprPrec
                (BinaryExprAST (char_of_int BinOp) LHS RHS) s4
        end
  end.

(** [while (getNextToken() == tok_identifier)
       ArgNames.push_back(IdentifierStr);] *)
Fixpoint ParsePrototypeArgs (fuel : nat) (ArgNames : list string) (s : State)
    : option (list string * State) :=
  match fuel with
  | O => None
  | S fuel =>
      let (t, s1) := getNextToken s in
      if t =? tok_identifier
      then ParsePrototypeArgs fuel (ArgNames ++ [IdentifierStr s1]) s1
      else Some (ArgNames, s1)
  end.

Definition ParsePrototype (fuel : nat) (s : State)
    : option (option PrototypeAST * State) :=
  if negb (CurTok s =? tok_identifier)
  then Some (LogErrorP "Expected function name in prototype" s)
  else
    let FnName := IdentifierStr s in
    let (_, s1) := getNextToken s in
    if negb (CurTok s1 =? ch "(")
    then Some (LogErrorP "Expected '(' in prototype" s1)
    else
      match ParsePrototypeArgs fuel [] s1 with
      | None => None
      | Some (ArgNames, s2) =>
          if negb (CurTok s2 =? ch ")")
          then Some (LogErrorP "Expected ')' in prototype" s2)
          else
            let (_, s3) := getNextToken s2 in (* eat ) *)
            Some (Some (mkPrototypeAST FnName ArgNames), s3)
      end.

Definition ParseDefinition (fuel : nat) (s : State)
    : option (option FunctionAST * State) :=
  let (_, s1) := getNextToken s in
  match ParsePrototype fuel s1 with
  | None => None
  | Some (None, s2) => Some (None, s2)
  | Some (Some P, s2) =>
      match ParseExpression fuel s2 with
      | None => None
      | Some (Some E, s3) => Some (Some (mkFunctionAST P E), s3)
      | Some (None, s3) => Some (None, s3)
      end
  end.

Definition ParseTopLevelExpr (fuel : nat) (s : State)
    : option (option FunctionAST * State) :=
  match ParseExpression fuel s with
  | None => None
  | Some (Some E, s1) =>
      let P := mkPrototypeAST "__anon_expr" [] in
      Some (Some (mkFunctionAST P E), s1)
  | Some (None, s1) => Some (None, s1)
  end.

Definition ParseExtern (fuel : nat) (s : State)
    : option (option PrototypeAST * State) :=
  let (_, s1) := getNextToken s in
  ParsePrototype fuel s1.

(** ** Top level *)

Definition HandleDefinition (fuel : nat) (s : State) : option State :=
  match ParseDefinition fuel s with
  | None => None
  | Some (Some _, s1) => Some (put_stdout ("Parsed a function definition." +:+ nl) s1)
  | Some (None, s1) => Some (snd (getNextToken s1))
  end.

Definition HandleExtern (fuel : nat) (s : State) : option State :=
  match ParseExtern fuel s with
  | None => None
  | Some (Some _, s1) => Some (put_stdout ("Parsed a function extern." +:+ nl) s1)
  | Some (None, s1) => Some (snd (getNextToken s1))
  end.

Definition HandleTopLevelExpr (fuel : nat) (s : State) : option State :=
  match ParseTopLevelExpr fuel s with
  | None => None
  | Some (Some _, s1) =>
      Some (put_stdout ("Parsed a function top-level expression." +:+ nl) s1)
  | Some (None, s1) => Some (snd (getNextToken s1))
  end.

Fixpoint MainLoop (fuel : nat) (s : State) : option State :=
  match fuel with
  | O => None
  | S fuel =>
      let s := put_stdout "ready> " s in
      if CurTok s =? tok_eof then Some s
      else if CurTok s =? ch ";" then MainLoop fuel (snd (getNextToken s))
      else if CurTok s =? tok_def then
        match HandleDefinition fuel s with
        | None => None
        | Some s1 => MainLoop fuel s1
        end
      else if CurTok s =? tok_extern then
        match HandleExtern fuel s with
        | None => None
        | Some s1 => MainLoop fuel s1
        end
      else
        match HandleTopLevelExpr fuel s with
        | None => None
        | Some s1 => MainLoop fuel s1
        end
  end.

(** The four assignments at the start of [main]. *)
Definition install_precedences (s : State) : State :=
  set_BinopPrecedence
    (<[ch "*" := 40]> (<[ch "-" := 20]> (<[ch "+" := 20]>
       (<[ch "<" := 10]> (BinopPrecedence s))))) s.

Definition main (fuel : nat) (s : State) : option State :=
  let s := install_precedences s in
  let s := put_stdout "ready> " s in
  let (_, s) := getNextToken s in
  MainLoop fuel s.

(** The state in which the process starts on the input text [input]: the
    statics hold their initialisers ([LastChar] a space, the numbers zero,
    the containers empty, [TheModule] null). The zero of [double] is
    written [strtod "0"]. *)
Definition start (input : string) : State :=
  mkState input [] [] (ch " ") EmptyString (strtod "0") 0 ∅ None [] ∅.

(** The state in which [main] enters [MainLoop] on the input text
    [input]: the precedences stored, the prompt written, the first token
    read. *)
Definition entering_MainLoop (input : string) : State :=
  let s := install_precedences (start input) in
  let s := put_stdout "ready> " s in
  snd (getNextToken s).

(** ** Code generation *)

(** A request to the builder: the instruction is inserted after those
    inserted before, and its result is the value handed back. *)
Definition Builder_Insert (I : Instruction) (s : State) : option Value * State :=
  (Some (InstResult (length (Builder s))), set_Builder (Builder s ++ [I]) s).

Definition NumberExprAST_codegen (Val : double) (s : State) : option Value * State :=
  (Some (ConstantFP Val), s).

Definition VariableExprAST_codegen (Name : string) (s : State)
    : option Value * State :=
  let (V, m) := map_subscript None (NamedValues s) Name in
  let s1 := set_NamedValues m s in
  match V with
  | None => (V, snd (LogErrorV "Unknown variable name" s1))
  | Some _ => (V, s1)
  end.

(** The [switch (Op)] of [BinaryExprAST::codegen], on two operands that
    are not null. *)
Definition BinaryExprAST_emit (Op : Z) (L R : Value) (s : State)
    : option Value * State :=
  if Op =? ch "+" then Builder_Insert (FAdd L R "addtmp") s
  else if Op =? ch "-" then Builder_Insert (FSub L R "subtmp") s
  else if Op =? ch "*" then Builder_Insert (FMul L R "multmp") s
  else if Op =? ch "<" then
    (* fcmp always returns i1 value *)
    match Builder_Insert (FCmpULT L R "cmptmp") s with
    | (Some L', s1) => Builder_Insert (UIToFP L' DoubleTy "booltmp") s1
    | (None, s1) => (None, s1)
    end
  else LogErrorV "invalid binary operator" s.

(** [codegen], by recursion on the tree. The outer [None] is undefined
    behaviour: [CallExprAST::codegen] dereferences [TheModule], which is a
    null pointer unless something has stored a module in it. *)
Fixpoint codegen (e : ExprAST) (s : State) : option (option Value * State) :=
  match e with
  | NumberExprAST Val => Some (NumberExprAST_codegen Val s)
  | VariableExprAST Name => Some (VariableExprAST_codegen Name s)
  | BinaryExprAST Op LHS RHS =>
      match codegen LHS s with
      | None => None
      | Some (L, s1) =>
          match codegen RHS s1 with
          | None => None
          | Some (R, s2) =>
              match L, R with
              | Some l, Some r => Some (BinaryExprAST_emit Op l r s2)
              | _, _ => Some (None, s2)
              end
          end
      end
  | CallExprAST Callee Args =>
      match TheModule s with
      | None => None
      | Some M =>
          match getFunction M Callee with
          | None => Some (LogErrorV "unknown function referenced." s)
          | Some CalleeF =>
              (* If argument mismatch error. *)
              if negb (arg_size CalleeF =? length Args)%nat
              then Some (LogErrorV "Incorrect number of arguments passed." s)
              else
                match
                  (fix args_loop (rest : list ExprAST) (ArgsV : list Value)
                       (s : State) : option (option (list Value) * State) :=
                     match rest with
                     | [] => Some (Some ArgsV, s)
                     | a :: rest' =>
                         match codegen a s with
                         | None => None
                         | Some (None, s1) => Some (None, s1)
                         | Some (Some v, s1) => args_loop rest' (ArgsV ++ [v]) s1
                         end
                     end) Args [] s
                with
                | None => None
                | Some (None, s1) => Some (None, s1)
                | Some (Some ArgsV, s1) =>
                    Some (Builder_Insert (Call CalleeF ArgsV "calltmp") s1)
                end
          end
      end
  end.

(** [Function::Create(FT, Linkage, Name, M)]: the new function, appended to
    the module when there is one. A name that is taken stays with the older
    function (see [getFunction]). *)
Definition Function_Create (FT : FunctionType) (Linkage : LinkageTypes)
    (Name : string) (s : State) : Function * State :=
  let F := mkFunction FT Linkage Name in
  match TheModule s with
  | Some M => (F, set_TheModule (Some (M ++ [F])) s)
  | None => (F, s)
  end.

Definition PrototypeAST_codegen (P : PrototypeAST) (s : State)
    : Returned (option Function) * State :=
  let Doubles := replicate (length (ProtoArgs P)) DoubleTy in
  let FT := mkFunctionType DoubleTy Doubles false in
  let (F, s1) := Function_Create FT ExternalLinkage (ProtoName P) s in
  (NoReturn, s1).

(** ** Vocabulary of the properties *)

(** [n] calls of [gettok] in a row: the tokens they return, and the state
    after the last one. *)
Fixpoint gettok_iter (n : nat) (s : State) : list Z * State :=
  match n with
  | O => ([], s)
  | S n' =>
      let (t, s1) := gettok s in
      let (ts, s2) := gettok_iter n' s1 in
      (t :: ts, s2)
  end.

(** The lexer is at the end of the input: a read has reached the end of
    the stream. Every result of [getchar] is stored in [LastChar], and once
    [getchar] has returned [EOF] nothing else is stored there, so this is
    [LastChar] holding [EOF]. *)
Definition at_end_of_input (s : State) : Prop := LastChar s = EOF.

(** The fields [gettok] does not touch. *)
Definition lexer_frame (s s' : State) : Prop :=
  stdout s' = stdout s /\ stderr s' = stderr s /\ CurTok s' = CurTok s /\
  BinopPrecedence s' = BinopPrecedence s /\ TheModule s' = TheModule s /\
  Builder s' = Builder s /\ NamedValues s' = NamedValues s.

(** ** Vocabulary of the parser's properties *)

(** The table [m'] is the table [m] with, possibly, further keys, all of
    them with the value 0: every entry of [m] is in [m'] with its value. *)
Definition table_grows_by_zeros (m m' : gmap Z Z) : Prop :=
  forall k, m' !! k = m !! k \/ (m !! k = None /\ m' !! k = Some 0).

(** What parsing leaves alone: the precedence table up to new entries of
    value 0, and the three variables of the code generator. *)
Definition parser_frame (s s' : State) : Prop :=
  table_grows_by_zeros (BinopPrecedence s) (BinopPrecedence s') /\
  TheModule s' = TheModule s /\ Builder s' = Builder s /\
  NamedValues s' = NamedValues s.

(** The operations of the parser and of the top level. *)
Inductive ParsingOperation : Type :=
| DoGetTokPrecedence
| DoParseNumberExpr
| DoParseParenExpr
| DoParseIdentifierExpr
| DoParsePrimary
| DoParseBinOpRHS (ExprPrec : Z) (LHS : ExprAST)
| DoParseExpression
| DoParsePrototype
| DoParseDefinition
| DoParseTopLevelExpr
| DoParseExtern
| DoHandleDefinition
| DoHandleExtern
| DoHandleTopLevelExpr
| DoMainLoop.

(** The state an operation leaves, when it returns within [fuel]. *)
Definition state_after (op : ParsingOperation) (fuel : nat) (s : State)
    : option State :=
  match op with
  | DoGetTokPrecedence => Some (snd (GetTokPrecedence s))
  | DoParseNumberExpr => Some (snd (ParseNumberExpr s))
  | DoParseParenExpr => snd <$> ParseParenExpr fuel s
  | DoParseIdentifierExpr => snd <$> ParseIdentifierExpr fuel s
  | DoParsePrimary => snd <$> ParsePrimary fuel s
  | DoParseBinOpRHS ExprPrec LHS => snd <$> ParseBinOpRHS fuel ExprPrec LHS s
  | DoParseExpression => snd <$> ParseExpression fuel s
  | DoParsePrototype => snd <$> ParsePrototype fuel s
  | DoParseDefinition => snd <$> ParseDefinition fuel s
  | DoParseTopLevelExpr => snd <$> ParseTopLevelExpr fuel s
  | DoParseExtern => snd <$> ParseExtern fuel s
  | DoHandleDefinition => HandleDefinition fuel s
  | DoHandleExtern => HandleExtern fuel s
  | DoHandleTopLevelExpr => HandleTopLevelExpr fuel s
  | DoMainLoop => MainLoop fuel s
  end.

(** ** Vocabulary of the further properties *)

(** [p] holds of every character of the text. *)
Fixpoint string_forallb (p : Z -> bool) (str : string) : bool :=
  match str with
  | EmptyString => true
  | String a rest => p (Z_of_ascii a) && string_forallb p rest
  end.

(** The text is empty, or [p] fails for its first character. *)
Definition stops (p : Z -> bool) (str : string) : bool :=
  match str with
  | EmptyString => true
  | String a _ => negb (p (Z_of_ascii a))
  end.

(** What [getchar] hands out on the unread text [str], and what is left. *)
Definition next_char (str : string) : Z * string :=
  match str with
  | EmptyString => (EOF, EmptyString)
  | String a rest => (Z_of_ascii a, rest)
  end.

(** The tests of the loops of [gettok] on a number and a comment. *)
Definition number_char (c : Z) : bool := isdigit c || (c =? ch ".").
Definition comment_char (c : Z) : bool :=
  negb (c =? EOF) && negb (c =? 10) && negb (c =? 13).

(** [LastChar] holds what [getchar] can return, or its initial space. *)
Definition LastChar_ok (s : State) : Prop := -1 <= LastChar s <= 255.

Definition is_enum_token (t : Z) : Prop :=
  t = tok_eof \/ t = tok_def \/ t = tok_extern \/ t = tok_identifier \/
  t = tok_number.

(** The characters [gettok] can return as themselves. *)
Definition is_punctuation (c : Z) : bool :=
  (0 <=? c) && (c <=? 255) && negb (isspace c) && negb (isalnum c) &&
  negb (c =? ch ".") && negb (c =? ch "#").

(** The unread text was [inp]; the last character read is [c'] and the
    unread text is [inp']: either the end was reached, or [c'] is a
    character of [inp] and [inp'] is what follows it. *)
Definition reads (inp : string) (c' : Z) (inp' : string) : Prop :=
  (c' = EOF /\ inp' = EmptyString) \/
  (exists pre a, inp = pre +:+ String a inp' /\ c' = Z_of_ascii a).

(** How far the lexer is from the end of the input: nothing once
    [LastChar] is [EOF], else the unread characters and the pending one. *)
Definition lexer_measure (s : State) : nat :=
  if LastChar s =? EOF then O else S (String.length (stdin s)).

(** The same for the parser, with its token of lookahead. *)
Definition parser_measure (s : State) : nat :=
  (2 * lexer_measure s + (if (CurTok s =? tok_eof)%Z then 0 else 1))%nat.


(** The lookahead agrees with the lexer: [LastChar] holds [EOF] only
    when no character is unread, and [CurTok] is the end token only when
    [LastChar] holds [EOF]. *)
Definition lookahead_ok (s : State) : Prop :=
  (LastChar s = EOF -> stdin s = EmptyString) /\
  (CurTok s = tok_eof -> LastChar s = EOF).



(** The loop over the arguments in [CallExprAST::codegen], by its name. *)
Definition codegen_args : list ExprAST -> list Value -> State ->
    option (option (list Value) * State) :=
  fix args_loop (rest : list ExprAST) (ArgsV : list Value) (s : State)
      : option (option (list Value) * State) :=
    match rest with
    | [] => Some (Some ArgsV, s)
    | a :: rest' =>
        match codegen a s with
        | None => None
        | Some (None, s1) => Some (None, s1)
        | Some (Some v, s1) => args_loop rest' (ArgsV ++ [v]) s1
        end
    end.

(** What code generation leaves alone, and what it only adds to: the
    variables of the lexer and the parser, [stdout] and the module are
    untouched; instructions and diagnostics are appended; names get new
    entries in the table of named values, holding null, and no entry
    changes. *)
Definition codegen_frame (s s' : State) : Prop :=
  (stdin s' = stdin s /\ stdout s' = stdout s /\ LastChar s' = LastChar s /\
   IdentifierStr s' = IdentifierStr s /\ NumVal s' = NumVal s /\
   CurTok s' = CurTok s /\ BinopPrecedence s' = BinopPrecedence s /\
   TheModule s' = TheModule s) /\
  (exists new, Builder s' = Builder s ++ new) /\
  (exists d, stderr s' = stderr s ++ d) /\
  (forall k, NamedValues s' !! k = NamedValues s !! k \/
             (NamedValues s !! k = None /\ NamedValues s' !! k = Some None)).

(** The expressions code generation accepts: every variable is bound to
    a value that is not null, every operator is one of the four, every
    callee is a function of the module with as many parameters as the
    call has arguments. *)
Fixpoint well_formed (M : option Module_) (NV : gmap string (option Value))
    (e : ExprAST) : bool :=
  match e with
  | NumberExprAST _ => true
  | VariableExprAST Name =>
      match NV !! Name with
      | Some (Some _) => true
      | _ => false
      end
  | BinaryExprAST Op LHS RHS =>
      well_formed M NV LHS && well_formed M NV RHS &&
      ((Op =? ch "+") || (Op =? ch "-") || (Op =? ch "*") || (Op =? ch "<"))
  | CallExprAST Callee Args =>
      match M with
      | Some m =>
          match getFunction m Callee with
          | Some F =>
              (arg_size F =? length Args)%nat &&
              forallb (well_formed M NV) Args
          | None => false
          end
      | None => false
      end
  end.

(** The instructions an accepted expression is lowered to: one for an
    arithmetic operator, two for a comparison, one for a call. *)
Fixpoint instruction_count (e : ExprAST) : nat :=
  match e with
  | NumberExprAST _ => O
  | VariableExprAST _ => O
  | BinaryExprAST Op LHS RHS =>
      (instruction_count LHS + instruction_count RHS +
       (if (Op =? ch "<")%Z then 2 else 1))%nat
  | CallExprAST _ Args =>
      (foldr (fun a n => instruction_count a + n) 0 Args + 1)%nat
  end.


(** The precedences [main] stores: the answer of [GetTokPrecedence] for
    the four operators, and -1, "no operator", for any other token. *)
Definition main_precedence (tok : Z) : Z :=
  if tok =? ch "<" then 10
  else if tok =? ch "+" then 20
  else if tok =? ch "-" then 20
  else if tok =? ch "*" then 40
  else -1.

(** One operation of the parser, whichever, run to its end. *)
Definition parsing_step (s s' : State) : Prop :=
  exists op fuel, state_after op fuel s = Some s'.


(** The input ahead is a chain [op1 rhs1 op2 rhs2 ...] of operators and
    primary expressions: at [s] the current token is the first operator,
    [ParsePrimary] parses the operand after it, and so on to the state
    [s'], where the current token is no binary operator. *)
Inductive operand_chain (fuel : nat)
    : State -> list (Z * ExprAST) -> State -> Prop :=
| operand_chain_end (s : State) :
    fst (GetTokPrecedence s) = -1 -> operand_chain fuel s [] s
| operand_chain_step (s : State) (op : Z) (rhs : ExprAST) (s1 : State)
    (rest : list (Z * ExprAST)) (s' : State) :
    CurTok s = op ->
    ParsePrimary fuel (snd (getNextToken s)) = Some (Some rhs, s1) ->
    operand_chain fuel s1 rest s' ->
    operand_chain fuel s ((op, rhs) :: rest) s'.

(** [((LHS op1 rhs1) op2 rhs2) ...]. *)
Definition left_nested (LHS : ExprAST) (chain : list (Z * ExprAST)) : ExprAST :=
  fold_left (fun acc p => BinaryExprAST (fst p) acc (snd p)) chain LHS.


(** ** Lexer: lemmas *)

Lemma skip_spaces_nonspace (c : Z) (inp : string) :
  isspace c = false -> skip_spaces c inp = (c, inp).
Proof. intros Hc. destruct inp; simpl; rewrite Hc; reflexivity. Qed.

Lemma skip_spaces_length (c : Z) (inp : string) :
  (String.length (snd (skip_spaces c inp)) <= String.length inp)%nat.
Proof.
  revert c. induction inp as [|a rest IH]; intros c; simpl.
  - destruct (isspace c); simpl; lia.
  - destruct (isspace c); simpl; [specialize (IH (Z_of_ascii a)) |]; lia.
Qed.

Lemma skip_spaces_empty (c : Z) :
  skip_spaces c EmptyString = (if isspace c then EOF else c, EmptyString).
Proof. simpl. destruct (isspace c); reflexivity. Qed.

Lemma skip_line_length (inp : string) :
  fst (skip_line inp) <> EOF ->
  (String.length (snd (skip_line inp)) < String.length inp)%nat.
Proof.
  induction inp as [|a rest IH]; simpl.
  - intros H. exfalso. apply H. reflexivity.
  - destruct (negb (Z_of_ascii a =? EOF) && negb (Z_of_ascii a =? 10)
              && negb (Z_of_ascii a =? 13)); simpl.
    + intros H. specialize (IH H). lia.
    + intros _. lia.
Qed.

Lemma gettok_rec_enough (fuel : nat) (s : State) :
  (String.length (stdin s) < fuel)%nat -> is_Some (gettok_rec fuel s).
Proof.
  revert s. induction fuel as [|fuel IH]; intros s Hlen; [lia|].
  simpl.
  pose proof (skip_spaces_length (LastChar s) (stdin s)) as Hsp.
  destruct (skip_spaces (LastChar s) (stdin s)) as [c inp]; simpl in Hsp.
  destruct (isalpha c).
  { destruct (read_identifier _ inp) as [[Str c'] inp'].
    repeat match goal with |- context [if ?b then _ else _] => destruct b end;
      eauto. }
  destruct (isdigit c || (c =? ch "."))%bool.
  { destruct (read_number _ c inp) as [[NumStr c'] inp']. eauto. }
  destruct (c =? ch "#"); [|eauto].
  pose proof (skip_line_length inp) as Hsl.
  destruct (skip_line inp) as [c' inp']; simpl in Hsl.
  destruct (c' =? EOF) eqn:Hc'; simpl; [eauto|].
  apply IH; simpl. apply Z.eqb_neq in Hc'. specialize (Hsl Hc'). lia.
Qed.

Lemma gettok_rec_gettok (s : State) (r : Z * State) :
  gettok s = r <-> gettok_rec (S (String.length (stdin s))) s = Some r.
Proof.
  unfold gettok.
  destruct (gettok_rec_enough (S (String.length (stdin s))) s) as [r' Hr'];
    [lia|].
  rewrite Hr'. split; congruence.
Qed.

Lemma set_lexer_same (s : State) :
  set_LastChar (LastChar s) (set_stdin (stdin s) s) = s.
Proof. destruct s; reflexivity. Qed.

Lemma gettok_rec_at_end (fuel : nat) (s : State) :
  at_end_of_input s -> gettok_rec (S fuel) s = Some (tok_eof, s).
Proof.
  unfold at_end_of_input. intros HE. simpl.
  rewrite HE, skip_spaces_nonspace by reflexivity.
  change (isalpha EOF) with false. cbv iota.
  change (isdigit EOF || (EOF =? ch "."))%bool with false. cbv iota.
  change (EOF =? ch "#") with false. cbv iota.
  unfold gettok_char. simpl. change (EOF =? EOF) with true. cbv iota.
  rewrite <- HE at 1. rewrite set_lexer_same. reflexivity.
Qed.

Lemma gettok_at_end (s : State) :
  at_end_of_input s -> gettok s = (tok_eof, s).
Proof. intros HE. apply gettok_rec_gettok, gettok_rec_at_end, HE. Qed.

Lemma gettok_char_spec (s : State) (t : Z) (s' : State) :
  gettok_char s = (t, s') ->
  lexer_frame s s' /\
  (t = tok_eof -> at_end_of_input s') /\
  (stdin s = EmptyString -> at_end_of_input s' /\ stdin s' = EmptyString).
Proof.
  unfold gettok_char, getchar, at_end_of_input, lexer_frame.
  destruct (LastChar s =? EOF) eqn:HE.
  - intros [= <- <-]. apply Z.eqb_eq in HE. repeat split; auto.
  - apply Z.eqb_neq in HE. destruct (stdin s) eqn:Hin; intros [= <- <-]; simpl.
    + repeat split; auto.
    + repeat split; auto; try discriminate.
      intros Ht. exfalso. apply HE. exact Ht.
Qed.

Lemma read_identifier_empty (Str : string) :
  read_identifier Str EmptyString = (Str, EOF, EmptyString).
Proof. reflexivity. Qed.

Lemma read_number_empty (NumStr : string) (c : Z) :
  read_number NumStr c EmptyString =
  (NumStr +:+ String (ascii_of_Z c) EmptyString, EOF, EmptyString).
Proof. reflexivity. Qed.

Lemma gettok_rec_spec (fuel : nat) (s : State) (t : Z) (s' : State) :
  gettok_rec fuel s = Some (t, s') ->
  lexer_frame s s' /\
  (t = tok_eof -> at_end_of_input s') /\
  (stdin s = EmptyString -> at_end_of_input s' /\ stdin s' = EmptyString).
Proof.
  revert s. induction fuel as [|fuel IH]; intros s; [discriminate|].
  simpl.
  destruct (skip_spaces (LastChar s) (stdin s)) as [c inp] eqn:Hsp.
  assert (Hinp : stdin s = EmptyString -> inp = EmptyString).
  { intros Hs. rewrite Hs, skip_spaces_empty in Hsp. congruence. }
  destruct (isalpha c).
  { destruct (read_identifier _ inp) as [[Str c'] inp'] eqn:Hid.
    assert (Hid' : stdin s = EmptyString -> c' = EOF /\ inp' = EmptyString).
    { intros Hs. rewrite (Hinp Hs), read_identifier_empty in Hid.
      split; congruence. }
    unfold lexer_frame, at_end_of_input.
    repeat match goal with |- context [if ?b then _ else _] => destruct b end;
      intros [= <- <-]; simpl;
      (split; [tauto|]; split; [discriminate|exact Hid']). }
  destruct (isdigit c || (c =? ch "."))%bool.
  { destruct (read_number _ c inp) as [[NumStr c'] inp'] eqn:Hnum.
    assert (Hnum' : stdin s = EmptyString -> c' = EOF /\ inp' = EmptyString).
    { intros Hs. rewrite (Hinp Hs), read_number_empty in Hnum.
      split; congruence. }
    unfold lexer_frame, at_end_of_input.
    intros [= <- <-]; simpl.
    split; [tauto|]; split; [discriminate|exact Hnum']. }
  assert (Hchar : forall s0, lexer_frame s s0 ->
            (stdin s = EmptyString -> stdin s0 = EmptyString) ->
            Some (gettok_char s0) = Some (t, s') ->
            lexer_frame s s' /\ (t = tok_eof -> at_end_of_input s') /\
            (stdin s = EmptyString -> at_end_of_input s' /\ stdin s' = EmptyString)).
  { intros s0 Hfr Hs0 [= Hg]. apply gettok_char_spec in Hg.
    destruct Hg as (Hfr' & Heof & Hend).
    unfold lexer_frame in *. intuition congruence. }
  destruct (c =? ch "#").
  - destruct (skip_line inp) as [c' inp'] eqn:Hsl.
    destruct (c' =? EOF) eqn:Hc'; simpl.
    + apply Hchar; [unfold lexer_frame; simpl; tauto|].
      simpl. intros Hs. rewrite (Hinp Hs) in Hsl. simpl in Hsl. congruence.
    + intros Hrec. apply IH in Hrec. simpl in Hrec.
      destruct Hrec as (Hfr & Heof & Hend).
      split; [unfold lexer_frame in *; simpl in *; tauto|].
      split; [exact Heof|].
      intros Hs. apply Hend. rewrite (Hinp Hs) in Hsl. simpl in Hsl. congruence.
  - apply Hchar; [unfold lexer_frame; simpl; tauto|].
    simpl. exact Hinp.
Qed.

Lemma gettok_spec (s : State) (t : Z) (s' : State) :
  gettok s = (t, s') ->
  lexer_frame s s' /\
  (t = tok_eof -> at_end_of_input s') /\
  (stdin s = EmptyString -> at_end_of_input s' /\ stdin s' = EmptyString).
Proof. intros H. apply gettok_rec_gettok in H. eapply gettok_rec_spec, H. Qed.

(** C9. Once the lexer is at the end of the input, every call of [gettok]
    returns the end token [tok_eof] and leaves the state as it is, so any
    number of calls in a row returns only end tokens; the lexer is at the
    end of the input whenever [gettok] has returned the end token, and
    after any call made when no unread character is left. *)
Theorem gettok_eof_stable (s : State) :
  (at_end_of_input s ->
     forall n, gettok_iter n s = (replicate n tok_eof, s)) /\
  (forall s', gettok s = (tok_eof, s') ->
     forall n, gettok_iter n s' = (replicate n tok_eof, s')) /\
  (forall t s', stdin s = EmptyString -> gettok s = (t, s') ->
     forall n, gettok_iter n s' = (replicate n tok_eof, s')).
Proof.
  assert (Hiter : forall s0, at_end_of_input s0 ->
            forall n, gettok_iter n s0 = (replicate n tok_eof, s0)).
  { intros s0 HE n. induction n as [|n IH]; [reflexivity|].
    simpl. rewrite (gettok_at_end s0 HE), IH. reflexivity. }
  split; [apply Hiter|]. split.
  - intros s' Hg. apply Hiter. apply gettok_spec in Hg.
    destruct Hg as (_ & Heof & _). apply Heof. reflexivity.
  - intros t s' Hs Hg. apply Hiter. apply gettok_spec in Hg.
    destruct Hg as (_ & _ & Hend). apply Hend, Hs.
Qed.

(** ** Parser: what it leaves alone *)

Lemma table_grows_by_zeros_refl (m : gmap Z Z) : table_grows_by_zeros m m.
Proof. intros k. left. reflexivity. Qed.

Lemma table_grows_by_zeros_trans (m1 m2 m3 : gmap Z Z) :
  table_grows_by_zeros m1 m2 -> table_grows_by_zeros m2 m3 ->
  table_grows_by_zeros m1 m3.
Proof.
  intros H12 H23 k. destruct (H12 k) as [E12|[N1 Z2]], (H23 k) as [E23|[N2 Z3]].
  - left. congruence.
  - right. split; congruence.
  - right. split; congruence.
  - congruence.
Qed.

Lemma parser_frame_refl (s : State) : parser_frame s s.
Proof. unfold parser_frame. auto using table_grows_by_zeros_refl. Qed.

Lemma parser_frame_trans (s1 s2 s3 : State) :
  parser_frame s1 s2 -> parser_frame s2 s3 -> parser_frame s1 s3.
Proof.
  unfold parser_frame. intros (T12 & ? & ? & ?) (T23 & ? & ? & ?).
  split; [eapply table_grows_by_zeros_trans; eassumption|].
  repeat split; congruence.
Qed.

Lemma parser_frame_eq (s s' : State) :
  BinopPrecedence s' = BinopPrecedence s -> TheModule s' = TheModule s ->
  Builder s' = Builder s -> NamedValues s' = NamedValues s ->
  parser_frame s s'.
Proof.
  intros Hb ? ? ?. unfold parser_frame. rewrite Hb.
  auto using table_grows_by_zeros_refl.
Qed.

Lemma put_stdout_frame (v : string) (s : State) : parser_frame s (put_stdout v s).
Proof. apply parser_frame_eq; reflexivity. Qed.

Lemma put_stderr_frame (v : string) (s : State) : parser_frame s (put_stderr v s).
Proof. apply parser_frame_eq; reflexivity. Qed.

Lemma getNextToken_spec (s : State) (t : Z) (s' : State) :
  getNextToken s = (t, s') ->
  CurTok s' = t /\ BinopPrecedence s' = BinopPrecedence s /\
  TheModule s' = TheModule s /\ Builder s' = Builder s /\
  NamedValues s' = NamedValues s /\ stdout s' = stdout s /\
  stderr s' = stderr s.
Proof.
  unfold getNextToken. destruct (gettok s) as [t0 s0] eqn:Hg.
  intros [= <- <-]. apply gettok_spec in Hg.
  destruct Hg as ((? & ? & ? & ? & ? & ? & ?) & _). simpl. tauto.
Qed.

Lemma getNextToken_frame (s : State) (t : Z) (s' : State) :
  getNextToken s = (t, s') -> parser_frame s s'.
Proof.
  intros H. apply getNextToken_spec in H.
  apply parser_frame_eq; tauto.
Qed.

Lemma map_subscript_zero_grows (m : gmap Z Z) (k : Z) :
  table_grows_by_zeros m (snd (map_subscript 0 m k)).
Proof.
  unfold map_subscript. destruct (m !! k) eqn:Hk; simpl.
  - apply table_grows_by_zeros_refl.
  - intros k'. destruct (decide (k = k')) as [<-|Hne].
    + right. rewrite lookup_insert_eq. auto.
    + left. apply lookup_insert_ne. exact Hne.
Qed.

Lemma GetTokPrecedence_frame (s : State) (p : Z) (s' : State) :
  GetTokPrecedence s = (p, s') -> parser_frame s s'.
Proof.
  unfold GetTokPrecedence. destruct (negb (isascii (CurTok s))).
  - intros [= <- <-]. apply parser_frame_refl.
  - pose proof (map_subscript_zero_grows (BinopPrecedence s)
                  (char_of_int (CurTok s))) as Hg.
    destruct (map_subscript 0 (BinopPrecedence s) (char_of_int (CurTok s)))
      as [TokPrec m]. simpl in Hg.
    destruct (TokPrec <=? 0); intros [= <- <-];
      unfold parser_frame; simpl; auto.
Qed.

(** The defining equations of the recursive descent, one level at a time. *)
Lemma ParseExpression_S (fuel : nat) (s : State) :
  ParseExpression (S fuel) s =
  match ParsePrimary fuel s with
  | None => None
  | Some (None, s1) => Some (None, s1)
  | Some (Some LHS, s1) => ParseBinOpRHS fuel 0 LHS s1
  end.
Proof. reflexivity. Qed.

Lemma ParseParenExpr_S (fuel : nat) (s : State) :
  ParseParenExpr (S fuel) s =
  let (_, s1) := getNextToken s in
  match ParseExpression fuel s1 with
  | None => None
  | Some (None, s2) => Some (None, s2)
  | Some (Some V, s2) =>
      if negb (CurTok s2 =? ch ")") then Some (LogError "expected ')'" s2)
      else let (_, s3) := getNextToken s2 in Some (Some V, s3)
  end.
Proof. reflexivity. Qed.

Lemma ParseIdentifierExpr_S (fuel : nat) (s : State) :
  ParseIdentifierExpr (S fuel) s =
  let IdName := IdentifierStr s in
  let (_, s1) := getNextToken s in
  if negb (CurTok s1 =? ch "(") then Some (Some (VariableExprAST IdName), s1)
  else
    let (_, s2) := getNextToken s1 in
    if negb (CurTok s2 =? ch ")") then
      match ParseCallArgs fuel [] s2 with
      | None => None
      | Some (None, s3) => Some (None, s3)
      | Some (Some Args, s3) =>
          let (_, s4) := getNextToken s3 in
          Some (Some (CallExprAST IdName Args), s4)
      end
    else
      let (_, s4) := getNextToken s2 in
      Some (Some (CallExprAST IdName []), s4).
Proof. reflexivity. Qed.

Lemma ParseCallArgs_S (fuel : nat) (Args : list ExprAST) (s : State) :
  ParseCallArgs (S fuel) Args s =
  match ParseExpression fuel s with
  | None => None
  | Some (None, s1) => Some (None, s1)
  | Some (Some Arg, s1) =>
      if CurTok s1 =? ch ")" then Some (Some (Args ++ [Arg]), s1)
      else if negb (CurTok s1 =? ch ",") then
        Some (None, snd (LogError (A := ExprAST)
                           "Expected ')' or ',' in argument list." s1))
      else
        let (_, s2) := getNextToken s1 in
        ParseCallArgs fuel (Args ++ [Arg]) s2
  end.
Proof. reflexivity. Qed.

Lemma ParsePrimary_S (fuel : nat) (s : State) :
  ParsePrimary (S fuel) s =
  if CurTok s =? tok_identifier then ParseIdentifierExpr fuel s
  else if CurTok s =? tok_number then Some (ParseNumberExpr s)
  else if CurTok s =? ch "(" then ParseParenExpr fuel s
  else Some (LogError "unknown token when expecting an expression" s).
Proof. reflexivity. Qed.

Lemma ParseBinOpRHS_S (fuel : nat) (ExprPrec : Z) (LHS : ExprAST) (s : State) :
  ParseBinOpRHS (S fuel) ExprPrec LHS s =
  let (TokPrec, s1) := GetTokPrecedence s in
  if TokPrec <? ExprPrec then Some (Some LHS, s1)
  else
    let BinOp := CurTok s1 in
    let (_, s2) := getNextToken s1 in
    match ParsePrimary fuel s2 with
    | None => None
    | Some (None, s3) => Some (None, s3)
    | Some (Some RHS, s3) =>
        let (NextPrec, s4) := GetTokPrecedence s3 in
        if TokPrec <? NextPrec then
          match ParseBinOpRHS fuel (TokPrec + 1) RHS s4 with
          | None => None
          | Some (None, s5) => Some (None, s5)
          | Some (Some RHS', s5) =>
              ParseBinOpRHS fuel ExprPrec
                (BinaryExprAST (char_of_int BinOp) LHS RHS') s5
          end
        else
          ParseBinOpRHS fuel ExprPrec
            (BinaryExprAST (char_of_int BinOp) LHS RHS) s4
    end.
Proof. reflexivity. Qed.

(** Case analysis on every call and test of a parsing function's body that
    stands in hypothesis [H]. *)
Ltac split_body H :=
  repeat (cbv zeta beta iota in H;
          match type of H with
          | context [match ?x with _ => _ end] =>
              first [ is_var x; destruct x
                    | destruct x eqn:? ]
          end;
          try discriminate H).

Ltac frame_facts :=
  repeat match goal with
    | H : getNextToken _ = (_, _) |- _ => apply getNextToken_frame in H
    | H : GetTokPrecedence _ = (_, _) |- _ => apply GetTokPrecedence_frame in H
    end.

Ltac frame_chain :=
  solve [ apply parser_frame_refl
        | eassumption
        | apply put_stderr_frame
        | apply put_stdout_frame
        | eapply parser_frame_trans; [eassumption | frame_chain] ].

Lemma parse_frame (fuel : nat) :
  (forall s r s', ParseExpression fuel s = Some (r, s') -> parser_frame s s') /\
  (forall s r s', ParseParenExpr fuel s = Some (r, s') -> parser_frame s s') /\
  (forall s r s', ParseIdentifierExpr fuel s = Some (r, s') -> parser_frame s s') /\
  (forall Args s r s', ParseCallArgs fuel Args s = Some (r, s') -> parser_frame s s') /\
  (forall s r s', ParsePrimary fuel s = Some (r, s') -> parser_frame s s') /\
  (forall ExprPrec LHS s r s',
     ParseBinOpRHS fuel ExprPrec LHS s = Some (r, s') -> parser_frame s s').
Proof.
  induction fuel as [|fuel (IHE & IHPar & IHId & IHArgs & IHPrim & IHBin)].
  { repeat split; intros; discriminate. }
  split; [|split; [|split; [|split; [|split]]]].
  - intros s r s' H. rewrite ParseExpression_S in H. split_body H.
    + apply IHBin in H. apply IHPrim in Heqo. frame_chain.
    + injection H as <- <-. apply IHPrim in Heqo. exact Heqo.
  - intros s r s' H. rewrite ParseParenExpr_S in H. split_body H;
      frame_facts;
      repeat match goal with
        | E : ParseExpression fuel _ = Some _ |- _ => apply IHE in E
        end;
      unfold LogError in H; injection H as <- <-; frame_chain.
  - intros s r s' H. rewrite ParseIdentifierExpr_S in H. split_body H;
      frame_facts;
      repeat match goal with
        | E : ParseCallArgs fuel _ _ = Some _ |- _ => apply IHArgs in E
        end;
      injection H as <- <-; frame_chain.
  - intros Args s r s' H. rewrite ParseCallArgs_S in H. split_body H;
      frame_facts;
      repeat match goal with
        | E : ParseExpression fuel _ = Some _ |- _ => apply IHE in E
        end;
      first [ apply IHArgs in H
            | unfold LogError in H; simpl in H; injection H as <- <- ];
      frame_chain.
  - intros s r s' H. rewrite ParsePrimary_S in H. split_body H.
    + eapply IHId, H.
    + unfold ParseNumberExpr in H. split_body H. injection H as <- <-.
      frame_facts. frame_chain.
    + eapply IHPar, H.
    + unfold LogError in H. injection H as <- <-. frame_chain.
  - intros ExprPrec LHS s r s' H. rewrite ParseBinOpRHS_S in H. split_body H;
      frame_facts;
      repeat match goal with
        | E : ParsePrimary fuel _ = Some _ |- _ => apply IHPrim in E
        | E : ParseBinOpRHS fuel _ _ _ = Some _ |- _ => apply IHBin in E
        end;
      try (injection H as <- <-); frame_chain.
Qed.

Lemma ParseExpression_frame (fuel : nat) (s : State) r (s' : State) :
  ParseExpression fuel s = Some (r, s') -> parser_frame s s'.
Proof. apply parse_frame. Qed.

Lemma ParsePrimary_frame (fuel : nat) (s : State) r (s' : State) :
  ParsePrimary fuel s = Some (r, s') -> parser_frame s s'.
Proof. apply parse_frame. Qed.

Lemma ParsePrototypeArgs_frame (fuel : nat) (ArgNames : list string)
    (s : State) r (s' : State) :
  ParsePrototypeArgs fuel ArgNames s = Some (r, s') -> parser_frame s s'.
Proof.
  revert ArgNames s. induction fuel as [|fuel IH]; intros ArgNames s H;
    [discriminate|].
  simpl in H. split_body H; frame_facts.
  - apply IH in H. frame_chain.
  - injection H as <- <-. frame_chain.
Qed.

Lemma ParsePrototype_frame (fuel : nat) (s : State) r (s' : State) :
  ParsePrototype fuel s = Some (r, s') -> parser_frame s s'.
Proof.
  unfold ParsePrototype, LogErrorP, LogError. intros H. split_body H;
    frame_facts;
    repeat match goal with
      | E : ParsePrototypeArgs _ _ _ = Some _ |- _ =>
          apply ParsePrototypeArgs_frame in E
      end;
    injection H as <- <-; frame_chain.
Qed.

Lemma ParseDefinition_frame (fuel : nat) (s : State) r (s' : State) :
  ParseDefinition fuel s = Some (r, s') -> parser_frame s s'.
Proof.
  unfold ParseDefinition. intros H. split_body H; frame_facts;
    repeat match goal with
      | E : ParsePrototype _ _ = Some _ |- _ => apply ParsePrototype_frame in E
      | E : ParseExpression _ _ = Some _ |- _ => apply ParseExpression_frame in E
      end;
    injection H as <- <-; frame_chain.
Qed.

Lemma ParseTopLevelExpr_frame (fuel : nat) (s : State) r (s' : State) :
  ParseTopLevelExpr fuel s = Some (r, s') -> parser_frame s s'.
Proof.
  unfold ParseTopLevelExpr. intros H. split_body H;
    repeat match goal with
      | E : ParseExpression _ _ = Some _ |- _ => apply ParseExpression_frame in E
      end;
    injection H as <- <-; frame_chain.
Qed.

Lemma ParseExtern_frame (fuel : nat) (s : State) r (s' : State) :
  ParseExtern fuel s = Some (r, s') -> parser_frame s s'.
Proof.
  unfold ParseExtern. intros H. split_body H; frame_facts.
  apply ParsePrototype_frame in H. frame_chain.
Qed.

Lemma snd_getNextToken_frame (s : State) : parser_frame s (snd (getNextToken s)).
Proof.
  destruct (getNextToken s) as [t s'] eqn:H. eapply getNextToken_frame, H.
Qed.

Lemma HandleDefinition_frame (fuel : nat) (s s' : State) :
  HandleDefinition fuel s = Some s' -> parser_frame s s'.
Proof.
  unfold HandleDefinition. intros H. split_body H;
    match goal with
    | E : ParseDefinition _ _ = Some _ |- _ => apply ParseDefinition_frame in E
    end;
    injection H as <-;
    (eapply parser_frame_trans; [eassumption|]);
    [apply put_stdout_frame | apply snd_getNextToken_frame].
Qed.

Lemma HandleExtern_frame (fuel : nat) (s s' : State) :
  HandleExtern fuel s = Some s' -> parser_frame s s'.
Proof.
  unfold HandleExtern. intros H. split_body H;
    match goal with
    | E : ParseExtern _ _ = Some _ |- _ => apply ParseExtern_frame in E
    end;
    injection H as <-;
    (eapply parser_frame_trans; [eassumption|]);
    [apply put_stdout_frame | apply snd_getNextToken_frame].
Qed.

Lemma HandleTopLevelExpr_frame (fuel : nat) (s s' : State) :
  HandleTopLevelExpr fuel s = Some s' -> parser_frame s s'.
Proof.
  unfold HandleTopLevelExpr. intros H. split_body H;
    match goal with
    | E : ParseTopLevelExpr _ _ = Some _ |- _ =>
        apply ParseTopLevelExpr_frame in E
    end;
    injection H as <-;
    (eapply parser_frame_trans; [eassumption|]);
    [apply put_stdout_frame | apply snd_getNextToken_frame].
Qed.

Lemma MainLoop_S (fuel : nat) (s : State) :
  MainLoop (S fuel) s =
  let s0 := put_stdout "ready> " s in
  if CurTok s0 =? tok_eof then Some s0
  else if CurTok s0 =? ch ";" then MainLoop fuel (snd (getNextToken s0))
  else if CurTok s0 =? tok_def then
    match HandleDefinition fuel s0 with
    | None => None
    | Some s1 => MainLoop fuel s1
    end
  else if CurTok s0 =? tok_extern then
    match HandleExtern fuel s0 with
    | None => None
    | Some s1 => MainLoop fuel s1
    end
  else
    match HandleTopLevelExpr fuel s0 with
    | None => None
    | Some s1 => MainLoop fuel s1
    end.
Proof. reflexivity. Qed.

Lemma MainLoop_frame (fuel : nat) (s s' : State) :
  MainLoop fuel s = Some s' -> parser_frame s s'.
Proof.
  revert s. induction fuel as [|fuel IH]; intros s H; [discriminate|].
  rewrite MainLoop_S in H.
  pose proof (put_stdout_frame "ready> " s) as Hp.
  set (s0 := put_stdout "ready> " s) in *.
  assert (Hs0 : parser_frame s0 s'); [|exact (parser_frame_trans _ _ _ Hp Hs0)].
  clearbody s0. clear Hp s. cbv zeta in H.
  destruct (CurTok s0 =? tok_eof).
  { injection H as <-. apply parser_frame_refl. }
  destruct (CurTok s0 =? ch ";").
  { apply IH in H. eapply parser_frame_trans; [|exact H].
    apply snd_getNextToken_frame. }
  destruct (CurTok s0 =? tok_def).
  { destruct (HandleDefinition fuel s0) as [s1|] eqn:HD; [|discriminate].
    apply HandleDefinition_frame in HD. apply IH in H.
    eapply parser_frame_trans; eassumption. }
  destruct (CurTok s0 =? tok_extern).
  { destruct (HandleExtern fuel s0) as [s1|] eqn:HD; [|discriminate].
    apply HandleExtern_frame in HD. apply IH in H.
    eapply parser_frame_trans; eassumption. }
  destruct (HandleTopLevelExpr fuel s0) as [s1|] eqn:HD; [|discriminate].
  apply HandleTopLevelExpr_frame in HD. apply IH in H.
  eapply parser_frame_trans; eassumption.
Qed.

Lemma state_after_frame (op : ParsingOperation) (fuel : nat) (s s' : State) :
  state_after op fuel s = Some s' -> parser_frame s s'.
Proof.
  destruct op; simpl; intros H;
    try (match type of H with
         | snd <$> ?x = Some _ =>
             destruct x as [[r s0]|] eqn:E; simpl in H; [|discriminate];
             injection H as <-
         end).
  - injection H as <-.
    destruct (GetTokPrecedence s) eqn:E. eapply GetTokPrecedence_frame, E.
  - injection H as <-. unfold ParseNumberExpr.
    destruct (getNextToken s) eqn:E. eapply getNextToken_frame, E.
  - destruct (parse_frame fuel) as (_ & HPar & _). eapply HPar, E.
  - destruct (parse_frame fuel) as (_ & _ & HId & _). eapply HId, E.
  - eapply ParsePrimary_frame, E.
  - destruct (parse_frame fuel) as (_ & _ & _ & _ & _ & HBin). eapply HBin, E.
  - eapply ParseExpression_frame, E.
  - eapply ParsePrototype_frame, E.
  - eapply ParseDefinition_frame, E.
  - eapply ParseTopLevelExpr_frame, E.
  - eapply ParseExtern_frame, E.
  - eapply HandleDefinition_frame, H.
  - eapply HandleExtern_frame, H.
  - eapply HandleTopLevelExpr_frame, H.
  - eapply MainLoop_frame, H.
Qed.

(** What [GetTokPrecedence] answers depends on the table only through the
    entries that are not 0. *)
Lemma GetTokPrecedence_fst (s : State) :
  fst (GetTokPrecedence s) =
  if negb (isascii (CurTok s)) then -1
  else
    let p := default 0 (BinopPrecedence s !! char_of_int (CurTok s)) in
    if p <=? 0 then -1 else p.
Proof.
  unfold GetTokPrecedence, map_subscript.
  destruct (negb (isascii (CurTok s))); [reflexivity|].
  destruct (BinopPrecedence s !! char_of_int (CurTok s)) as [p|]; simpl.
  - destruct (p <=? 0); reflexivity.
  - reflexivity.
Qed.

Lemma table_grows_by_zeros_default (m m' : gmap Z Z) (k : Z) :
  table_grows_by_zeros m m' -> default 0 (m' !! k) = default 0 (m !! k).
Proof. intros H. destruct (H k) as [->|[-> ->]]; reflexivity. Qed.

(** C4, as the code has it. [main] stores the four precedences before it
    reads the first token. Whatever parsing operation runs afterwards,
    every entry of the table keeps its value, the only change there can be
    is new entries of value 0 (which [std::map::operator[]] adds for the
    characters [GetTokPrecedence] looks up and does not find), and
    [GetTokPrecedence] gives every token the precedence it gave before. *)
Theorem parsing_keeps_precedences (op : ParsingOperation) (fuel : nat)
    (s s' : State) :
  state_after op fuel s = Some s' ->
  table_grows_by_zeros (BinopPrecedence s) (BinopPrecedence s') /\
  (forall k p, BinopPrecedence s !! k = Some p ->
               BinopPrecedence s' !! k = Some p) /\
  (forall tok, fst (GetTokPrecedence (set_CurTok tok s')) =
               fst (GetTokPrecedence (set_CurTok tok s))).
Proof.
  intros H. apply state_after_frame in H. destruct H as (Ht & _).
  split; [exact Ht|]. split.
  - intros k p Hk. destruct (Ht k) as [E|[N _]]; congruence.
  - intros tok. rewrite !GetTokPrecedence_fst. simpl.
    rewrite (table_grows_by_zeros_default _ _ _ Ht). reflexivity.
Qed.

(** C2, as the code has it. [FunctionAST] has no code generation and
    [HandleDefinition] only parses: for a definition that
    [ParseDefinition] parses, it writes the line "Parsed a function
    definition." and nothing else happens; the module, the instructions
    of the builder and the table of named values are what they were. *)
Theorem HandleDefinition_only_parses (fuel : nat) (s : State)
    (F : FunctionAST) (s1 : State) :
  ParseDefinition fuel s = Some (Some F, s1) ->
  HandleDefinition fuel s =
    Some (put_stdout ("Parsed a function definition." +:+ nl) s1) /\
  TheModule s1 = TheModule s /\ Builder s1 = Builder s /\
  NamedValues s1 = NamedValues s.
Proof.
  intros H. unfold HandleDefinition. rewrite H. split; [reflexivity|].
  apply ParseDefinition_frame in H. unfold parser_frame in H. tauto.
Qed.

(** ** Parser: more fuel never changes a result *)

Lemma parse_fuel_S (fuel : nat) :
  (forall s r, ParseExpression fuel s = Some r ->
               ParseExpression (S fuel) s = Some r) /\
  (forall s r, ParseParenExpr fuel s = Some r ->
               ParseParenExpr (S fuel) s = Some r) /\
  (forall s r, ParseIdentifierExpr fuel s = Some r ->
               ParseIdentifierExpr (S fuel) s = Some r) /\
  (forall Args s r, ParseCallArgs fuel Args s = Some r ->
                    ParseCallArgs (S fuel) Args s = Some r) /\
  (forall s r, ParsePrimary fuel s = Some r ->
               ParsePrimary (S fuel) s = Some r) /\
  (forall ExprPrec LHS s r, ParseBinOpRHS fuel ExprPrec LHS s = Some r ->
                            ParseBinOpRHS (S fuel) ExprPrec LHS s = Some r).
Proof.
  induction fuel as [|fuel (IHE & IHPar & IHId & IHArgs & IHPrim & IHBin)].
  { repeat split; intros; discriminate. }
  split; [|split; [|split; [|split; [|split]]]].
  - intros s r H. rewrite ParseExpression_S in H.
    rewrite (ParseExpression_S (S fuel)). split_body H;
      repeat match goal with
        | E : ParsePrimary fuel _ = Some _ |- _ =>
            apply IHPrim in E; rewrite E; cbv beta iota zeta
        end; auto.
  - intros s r H. rewrite ParseParenExpr_S in H.
    rewrite (ParseParenExpr_S (S fuel)). split_body H;
      repeat match goal with
        | E : ParseExpression fuel _ = Some _ |- _ =>
            apply IHE in E; rewrite E; cbv beta iota zeta
        | E : _ = _ |- _ => rewrite E; cbv beta iota zeta
        end; auto.
  - intros s r H. rewrite ParseIdentifierExpr_S in H.
    rewrite (ParseIdentifierExpr_S (S fuel)). split_body H;
      repeat match goal with
        | E : ParseCallArgs fuel _ _ = Some _ |- _ =>
            apply IHArgs in E; rewrite E; cbv beta iota zeta
        | E : _ = _ |- _ => rewrite E; cbv beta iota zeta
        end; auto.
  - intros Args s r H. rewrite ParseCallArgs_S in H.
    rewrite (ParseCallArgs_S (S fuel)). split_body H;
      repeat match goal with
        | E : ParseExpression fuel _ = Some _ |- _ =>
            apply IHE in E; rewrite E; cbv beta iota zeta
        | E : _ = _ |- _ => rewrite E; cbv beta iota zeta
        end; auto.
  - intros s r H. rewrite ParsePrimary_S in H.
    rewrite (ParsePrimary_S (S fuel)). split_body H;
      repeat match goal with
        | E : _ = _ |- _ => rewrite E; cbv beta iota zeta
        end; auto.
  - intros ExprPrec LHS s r H. rewrite ParseBinOpRHS_S in H.
    rewrite (ParseBinOpRHS_S (S fuel)). split_body H;
      repeat match goal with
        | E : ParsePrimary fuel _ = Some _ |- _ =>
            apply IHPrim in E; rewrite E; cbv beta iota zeta
        | E : ParseBinOpRHS fuel _ _ _ = Some _ |- _ =>
            apply IHBin in E; rewrite E; cbv beta iota zeta
        | E : _ = _ |- _ => rewrite E; cbv beta iota zeta
        end; auto.
Qed.

Lemma ParsePrimary_fuel_le (n m : nat) (s : State) r :
  (n <= m)%nat -> ParsePrimary n s = Some r -> ParsePrimary m s = Some r.
Proof.
  intros Hle H. induction Hle as [|m Hle IH]; [exact H|].
  apply parse_fuel_S, IH.
Qed.

(** ** Parser: precedence climbing *)

Lemma char_of_int_ascii (c : Z) : isascii c = true -> char_of_int c = c.
Proof.
  unfold isascii, char_of_int. intros H.
  apply andb_true_iff in H. destruct H as [H1 H2].
  apply Z.leb_le in H1, H2.
  rewrite Z.mod_small by lia. lia.
Qed.

Lemma set_BinopPrecedence_same (s : State) :
  set_BinopPrecedence (BinopPrecedence s) s = s.
Proof. destruct s; reflexivity. Qed.

Lemma GetTokPrecedence_operator (s : State) (p : Z) :
  isascii (CurTok s) = true ->
  BinopPrecedence s !! CurTok s = Some p -> 0 < p ->
  GetTokPrecedence s = (p, s).
Proof.
  intros Ha Hp Hpos. unfold GetTokPrecedence, map_subscript.
  rewrite Ha, (char_of_int_ascii _ Ha), Hp. simpl.
  rewrite set_BinopPrecedence_same.
  destruct (p <=? 0) eqn:E; [apply Z.leb_le in E; lia|reflexivity].
Qed.

Lemma GetTokPrecedence_again (s : State) :
  GetTokPrecedence (snd (GetTokPrecedence s)) = GetTokPrecedence s.
Proof.
  unfold GetTokPrecedence at 2 3.
  destruct (negb (isascii (CurTok s))) eqn:Ha.
  { simpl. unfold GetTokPrecedence. rewrite Ha. reflexivity. }
  unfold map_subscript.
  destruct (BinopPrecedence s !! char_of_int (CurTok s)) as [p|] eqn:Hp.
  - assert (Hsame : set_BinopPrecedence (BinopPrecedence s) s = s)
      by apply set_BinopPrecedence_same.
    rewrite Hsame.
    assert (Hs : GetTokPrecedence s = (if p <=? 0 then -1 else p, s)).
    { unfold GetTokPrecedence, map_subscript. rewrite Ha, Hp, Hsame.
      destruct (p <=? 0); reflexivity. }
    destruct (p <=? 0); simpl; exact Hs.
  - change (0 <=? 0) with true. cbv iota. simpl snd.
    unfold GetTokPrecedence, map_subscript. simpl.
    rewrite Ha, lookup_insert_eq. simpl.
    reflexivity.
Qed.

Lemma GetTokPrecedence_not_operator (s : State) :
  fst (GetTokPrecedence s) = -1 ->
  GetTokPrecedence s = (-1, snd (GetTokPrecedence s)) /\
  GetTokPrecedence (snd (GetTokPrecedence s)) = (-1, snd (GetTokPrecedence s)).
Proof.
  intros H. rewrite GetTokPrecedence_again.
  destruct (GetTokPrecedence s) as [p s']. simpl in *. subst p. auto.
Qed.

(** C1. Two operators: for the input [a OP1 b OP2 c], where [a], [b] and
    [c] are what [ParsePrimary] parses between the tokens, [OP1] and [OP2]
    are characters with positive entries in the precedence table and the
    token after [c] is not a binary operator, [ParseExpression] returns
    [(a OP1 b) OP2 c] when the precedence of [OP1] is at least that of
    [OP2] and [a OP1 (b OP2 c)] when it is less. *)
Theorem ParseExpression_two_operators (fuel : nat) (s0 : State)
    (a b c : ExprAST) (s1 s2 s3 : State) (OP1 OP2 p1 p2 : Z) :
  isascii OP1 = true -> isascii OP2 = true ->
  BinopPrecedence s0 !! OP1 = Some p1 -> 0 < p1 ->
  BinopPrecedence s0 !! OP2 = Some p2 -> 0 < p2 ->
  ParsePrimary fuel s0 = Some (Some a, s1) -> CurTok s1 = OP1 ->
  ParsePrimary fuel (snd (getNextToken s1)) = Some (Some b, s2) ->
  CurTok s2 = OP2 ->
  ParsePrimary fuel (snd (getNextToken s2)) = Some (Some c, s3) ->
  fst (GetTokPrecedence s3) = -1 ->
  ParseExpression (fuel + 3) s0 =
    Some (Some (if p2 <=? p1
                then BinaryExprAST OP2 (BinaryExprAST OP1 a b) c
                else BinaryExprAST OP1 a (BinaryExprAST OP2 b c)),
          snd (GetTokPrecedence s3)).
Proof.
  intros Ha1 Ha2 Hp1 Hpos1 Hp2 Hpos2 Pa Hop1 Pb Hop2 Pc Hend.
  (* the entries of the two operators are still there when they are read *)
  pose proof (ParsePrimary_frame _ _ _ _ Pa) as (T01 & _).
  pose proof (snd_getNextToken_frame s1) as (T1 & _).
  pose proof (ParsePrimary_frame _ _ _ _ Pb) as (T12 & _).
  pose proof (table_grows_by_zeros_trans _ _ _ T01
                (table_grows_by_zeros_trans _ _ _ T1 T12)) as T02.
  assert (G1 : GetTokPrecedence s1 = (p1, s1)).
  { apply GetTokPrecedence_operator; rewrite ?Hop1; auto.
    destruct (T01 OP1) as [E|[N _]]; congruence. }
  assert (G2 : GetTokPrecedence s2 = (p2, s2)).
  { apply GetTokPrecedence_operator; rewrite ?Hop2; auto.
    destruct (T02 OP2) as [E|[N _]]; congruence. }
  destruct (GetTokPrecedence_not_operator s3 Hend) as (G3 & G4).
  set (s4 := snd (GetTokPrecedence s3)) in *.
  destruct fuel as [|fuel]; [discriminate|].
  assert (L1 : forall r s, ParsePrimary (S fuel) s = Some r ->
                           ParsePrimary (S (S fuel)) s = Some r).
  { intros r s. apply ParsePrimary_fuel_le. lia. }
  assert (L2 : forall r s, ParsePrimary (S fuel) s = Some r ->
                           ParsePrimary (S (S (S fuel))) s = Some r).
  { intros r s. apply ParsePrimary_fuel_le. lia. }
  assert (Lt0 : forall p, 0 < p -> (p <? 0) = false).
  { intros p Hp. apply Z.ltb_ge. lia. }
  replace (S fuel + 3)%nat with (S (S (S (S fuel)))) by lia.
  rewrite ParseExpression_S, (L2 _ _ Pa).
  rewrite ParseBinOpRHS_S, G1, (Lt0 _ Hpos1).
  destruct (getNextToken s1) as [t1 s1'] eqn:N1. cbn [snd] in Pb.
  cbv beta iota zeta.
  rewrite (L1 _ _ Pb), G2, Hop1, (char_of_int_ascii _ Ha1).
  destruct (getNextToken s2) as [t2 s2'] eqn:N2. cbn [snd] in Pc.
  assert (Lm1 : forall p, 0 < p -> (p <? -1) = false).
  { intros p Hp. apply Z.ltb_ge. lia. }
  destruct (p2 <=? p1) eqn:Hcmp.
  - apply Z.leb_le in Hcmp.
    replace (p1 <? p2) with false by (symmetry; apply Z.ltb_ge; lia).
    rewrite ParseBinOpRHS_S, G2, (Lt0 _ Hpos2), N2. cbv beta iota zeta.
    rewrite Pc, G3, (Lm1 _ Hpos2).
    rewrite ParseBinOpRHS_S, G4, Hop2, (char_of_int_ascii _ Ha2).
    reflexivity.
  - apply Z.leb_gt in Hcmp.
    replace (p1 <? p2) with true by (symmetry; apply Z.ltb_lt; lia).
    rewrite (ParseBinOpRHS_S (S fuel) (p1 + 1)), G2.
    replace (p2 <? p1 + 1) with false by (symmetry; apply Z.ltb_ge; lia).
    rewrite N2. cbv beta iota zeta. rewrite Pc, G3, (Lm1 _ Hpos2).
    rewrite ParseBinOpRHS_S, G4.
    replace (-1 <? p1 + 1) with true by (symmetry; apply Z.ltb_lt; lia).
    rewrite ParseBinOpRHS_S, G4, Hop2, (char_of_int_ascii _ Ha2).
    reflexivity.
Qed.

(** ** Parser: prototypes *)

Lemma ParsePrototypeArgs_fuel_add (n fuel : nat) (ArgNames : list string)
    (s : State) r :
  ParsePrototypeArgs fuel ArgNames s = Some r ->
  ParsePrototypeArgs (fuel + n) ArgNames s = Some r.
Proof.
  revert ArgNames s. induction fuel as [|fuel IH]; intros ArgNames s H;
    [discriminate|].
  simpl in *. destruct (getNextToken s) as [t s1].
  destruct (t =? tok_identifier); [apply IH, H|exact H].
Qed.

Lemma ParsePrototype_fuel_add (n fuel : nat) (s : State) r :
  ParsePrototype fuel s = Some r -> ParsePrototype (fuel + n) s = Some r.
Proof.
  unfold ParsePrototype.
  destruct (negb (CurTok s =? tok_identifier)); [auto|].
  destruct (getNextToken s) as [t s1].
  destruct (negb (CurTok s1 =? ch "(")); [auto|].
  destruct (ParsePrototypeArgs fuel [] s1) as [[ArgNames s2]|] eqn:HA;
    [|discriminate].
  rewrite (ParsePrototypeArgs_fuel_add n _ _ _ _ HA). auto.
Qed.

(** C8. With the text "foo(x y)" as input and its first token read,
    [ParsePrototype] returns the prototype named foo with the parameters
    x and y; with the text "foo(x y", where the closing parenthesis is
    missing, it writes the diagnostic "Expected ')' in prototype" and
    returns the null pointer, no prototype. Three units of fuel, or any
    larger amount, are enough for both. *)
Theorem ParsePrototype_foo_x_y (n : nat) :
  (exists s',
     ParsePrototype (3 + n) (snd (getNextToken (start "foo(x y)"))) =
       Some (Some (mkPrototypeAST "foo" ["x"; "y"]), s') /\
     stderr s' = []) /\
  (exists s',
     ParsePrototype (3 + n) (snd (getNextToken (start "foo(x y"))) =
       Some (None, s') /\
     stderr s' = ["LogError: Expected ')' in prototype" +:+ nl]).
Proof.
  split; eexists; (split; [apply ParsePrototype_fuel_add; vm_compute|]);
    reflexivity.
Qed.

(** ** Code generator *)

Lemma codegen_CallExprAST_unfold (Callee : string) (Args : list ExprAST)
    (s : State) (M : Module_) :
  TheModule s = Some M ->
  codegen (CallExprAST Callee Args) s =
  match getFunction M Callee with
  | None => Some (LogErrorV "unknown function referenced." s)
  | Some CalleeF =>
      if negb (arg_size CalleeF =? length Args)%nat
      then Some (LogErrorV "Incorrect number of arguments passed." s)
      else
        match
          (fix args_loop (rest : list ExprAST) (ArgsV : list Value)
               (s : State) : option (option (list Value) * State) :=
             match rest with
             | [] => Some (Some ArgsV, s)
             | a :: rest' =>
                 match codegen a s with
                 | None => None
                 | Some (None, s1) => Some (None, s1)
                 | Some (Some v, s1) => args_loop rest' (ArgsV ++ [v]) s1
                 end
             end) Args [] s
        with
        | None => None
        | Some (None, s1) => Some (None, s1)
        | Some (Some ArgsV, s1) =>
            Some (Builder_Insert (Call CalleeF ArgsV "calltmp") s1)
        end
  end.
Proof. intros HM. simpl. rewrite HM. reflexivity. Qed.

(** C5. A call whose callee is a function of the module with a number of
    parameters other than the number of arguments fails with the
    diagnostic "Incorrect number of arguments passed." before any
    argument is generated: the state it leaves is the state it started
    in with that one line more on [stderr], so no instruction, for an
    argument or for the call, has been inserted, and no argument has
    touched the named values. *)
Theorem CallExprAST_codegen_arity_mismatch (Callee : string)
    (Args : list ExprAST) (s : State) (M : Module_) (CalleeF : Function) :
  TheModule s = Some M ->
  getFunction M Callee = Some CalleeF ->
  arg_size CalleeF <> length Args ->
  exists s',
    codegen (CallExprAST Callee Args) s = Some (None, s') /\
    s' = put_stderr ("LogError: Incorrect number of arguments passed." +:+ nl) s /\
    Builder s' = Builder s /\ NamedValues s' = NamedValues s /\
    TheModule s' = TheModule s.
Proof.
  intros HM HF Hne. eexists. split; [|repeat split].
  rewrite (codegen_CallExprAST_unfold _ _ _ _ HM), HF.
  apply Nat.eqb_neq in Hne. rewrite Hne. reflexivity.
Qed.

(** C6. A call whose callee is not the name of a function of the module
    fails with the diagnostic "unknown function referenced."; the state
    it leaves is the state it started in with that one line more on
    [stderr], so no call instruction (and no other instruction) has been
    inserted. *)
Theorem CallExprAST_codegen_unknown_function (Callee : string)
    (Args : list ExprAST) (s : State) (M : Module_) :
  TheModule s = Some M ->
  getFunction M Callee = None ->
  exists s',
    codegen (CallExprAST Callee Args) s = Some (None, s') /\
    s' = put_stderr ("LogError: unknown function referenced." +:+ nl) s /\
    Builder s' = Builder s.
Proof.
  intros HM HF. eexists. split; [|repeat split].
  rewrite (codegen_CallExprAST_unfold _ _ _ _ HM), HF. reflexivity.
Qed.

(** C7. A binary node generates its left operand and then its right one.
    If either is null the node is null and nothing is inserted after the
    operands. Otherwise '+', '-' and '*' insert one [FAdd], [FSub] or
    [FMul] of the two operand values and return its result; '<' inserts
    the comparison [FCmpULT] of the operands and then the conversion
    [UIToFP] of its result to [double], and returns the converted value;
    any other operator inserts nothing, writes the diagnostic "invalid
    binary operator" and returns null. *)
Theorem BinaryExprAST_codegen_cases (Op : Z) (LHS RHS : ExprAST)
    (s s1 s2 : State) (L R : option Value) :
  codegen LHS s = Some (L, s1) ->
  codegen RHS s1 = Some (R, s2) ->
  (L = None \/ R = None ->
     codegen (BinaryExprAST Op LHS RHS) s = Some (None, s2)) /\
  (forall l r, L = Some l -> R = Some r ->
     exists s3,
       let n := length (Builder s2) in
       (Op = ch "+" ->
          codegen (BinaryExprAST Op LHS RHS) s = Some (Some (InstResult n), s3) /\
          Builder s3 = Builder s2 ++ [FAdd l r "addtmp"] /\
          stderr s3 = stderr s2) /\
       (Op = ch "-" ->
          codegen (BinaryExprAST Op LHS RHS) s = Some (Some (InstResult n), s3) /\
          Builder s3 = Builder s2 ++ [FSub l r "subtmp"] /\
          stderr s3 = stderr s2) /\
       (Op = ch "*" ->
          codegen (BinaryExprAST Op LHS RHS) s = Some (Some (InstResult n), s3) /\
          Builder s3 = Builder s2 ++ [FMul l r "multmp"] /\
          stderr s3 = stderr s2) /\
       (Op = ch "<" ->
          codegen (BinaryExprAST Op LHS RHS) s =
            Some (Some (InstResult (S n)), s3) /\
          Builder s3 = Builder s2 ++ [FCmpULT l r "cmptmp";
                                      UIToFP (InstResult n) DoubleTy "booltmp"] /\
          stderr s3 = stderr s2) /\
       (Op <> ch "+" -> Op <> ch "-" -> Op <> ch "*" -> Op <> ch "<" ->
          codegen (BinaryExprAST Op LHS RHS) s = Some (None, s3) /\
          Builder s3 = Builder s2 /\
          stderr s3 = stderr s2 ++ ["LogError: invalid binary operator" +:+ nl])).
Proof.
  intros HL HR. split.
  - intros Hnull. simpl. rewrite HL, HR.
    destruct L, R; destruct Hnull; try discriminate; reflexivity.
  - intros l r -> ->.
    exists (snd (BinaryExprAST_emit Op l r s2)).
    assert (Hcg : codegen (BinaryExprAST Op LHS RHS) s =
                  Some (BinaryExprAST_emit Op l r s2)).
    { simpl. rewrite HL, HR. reflexivity. }
    rewrite Hcg. cbv zeta.
    assert (Hlen : forall I : Instruction,
              length (Builder s2 ++ [I]) = S (length (Builder s2))).
    { intros I. rewrite length_app. simpl. lia. }
    split; [|split; [|split; [|split]]].
    1-3: intros ->; repeat split; reflexivity.
    + intros ->. unfold BinaryExprAST_emit, Builder_Insert. simpl.
      rewrite Hlen, <- app_assoc. repeat split; reflexivity.
    + intros N1 N2 N3 N4. unfold BinaryExprAST_emit.
      apply Z.eqb_neq in N1, N2, N3, N4. rewrite N1, N2, N3, N4.
      repeat split; reflexivity.
Qed.

(** C10. Generating a variable whose name has no entry in the table of
    named values returns null, and it is not a read: [operator[]] has
    inserted an entry for the name, holding a null pointer, so the keys
    of the table are the old ones and the name. The diagnostic "Unknown
    variable name" is written. *)
Theorem VariableExprAST_codegen_unbound (Name : string) (s : State) :
  NamedValues s !! Name = None ->
  exists s',
    codegen (VariableExprAST Name) s = Some (None, s') /\
    NamedValues s' = <[Name := None]> (NamedValues s) /\
    (NamedValues s' !! Name = Some None) /\
    (Name ∉ dom (NamedValues s)) /\
    dom (NamedValues s') = {[Name]} ∪ dom (NamedValues s) /\
    stderr s' = stderr s ++ ["LogError: Unknown variable name" +:+ nl] /\
    Builder s' = Builder s.
Proof.
  intros Hn. eexists. split.
  { simpl. unfold VariableExprAST_codegen, map_subscript. rewrite Hn.
    reflexivity. }
  simpl. split; [reflexivity|]. split; [apply lookup_insert_eq|].
  split; [apply not_elem_of_dom, Hn|]. split; [apply dom_insert_L|].
  split; reflexivity.
Qed.

(** C3, as the code has it. [PrototypeAST::codegen] creates in the module
    a function with the prototype's name, as many [double] parameters as
    the prototype has names, a [double] result and external linkage, and
    then its body ends: there is no [return], and no handle of the
    function is handed to the caller. *)
Theorem PrototypeAST_codegen_no_return (P : PrototypeAST) (s : State) :
  fst (PrototypeAST_codegen P s) = NoReturn /\
  TheModule (snd (PrototypeAST_codegen P s)) =
    (fun M => M ++ [mkFunction
                      (mkFunctionType DoubleTy
                         (replicate (length (ProtoArgs P)) DoubleTy) false)
                      ExternalLinkage (ProtoName P)]) <$> TheModule s.
Proof.
  unfold PrototypeAST_codegen, Function_Create.
  destruct (TheModule s) as [M|] eqn:HM; simpl; [auto|].
  split; [reflexivity|exact HM].
Qed.

(** ** Lexer: what a call consumes and what it returns *)

Lemma append_String (a : ascii) (x y : string) :
  String a x +:+ y = String a (x +:+ y).
Proof. reflexivity. Qed.

Lemma append_nil_r (x : string) : x +:+ EmptyString = x.
Proof.
  induction x as [|a x IH]; [reflexivity|].
  rewrite append_String, IH. reflexivity.
Qed.

Lemma append_assoc (x y z : string) : (x +:+ y) +:+ z = x +:+ (y +:+ z).
Proof.
  induction x as [|a x IH]; [reflexivity|].
  rewrite !append_String, IH. reflexivity.
Qed.

Lemma length_append (x y : string) :
  String.length (x +:+ y) = (String.length x + String.length y)%nat.
Proof.
  induction x as [|a x IH]; [reflexivity|].
  rewrite append_String. simpl. rewrite IH. reflexivity.
Qed.

Lemma Z_of_ascii_range (a : ascii) : 0 <= Z_of_ascii a <= 255.
Proof.
  unfold Z_of_ascii. pose proof (N_ascii_bounded a) as H. lia.
Qed.

Lemma reads_here (a : ascii) (rest : string) :
  reads (String a rest) (Z_of_ascii a) rest.
Proof. right. exists EmptyString, a. split; reflexivity. Qed.

Lemma reads_end (inp : string) : reads inp EOF EmptyString.
Proof. left. split; reflexivity. Qed.

Lemma reads_String (a : ascii) (rest : string) (c' : Z) (inp' : string) :
  reads rest c' inp' -> reads (String a rest) c' inp'.
Proof.
  intros [H|(pre & b & -> & ->)]; [left; exact H|].
  right. exists (String a pre), b. split; reflexivity.
Qed.

Lemma reads_trans (inp : string) (c1 : Z) (inp1 : string) (c2 : Z)
    (inp2 : string) :
  reads inp c1 inp1 -> reads inp1 c2 inp2 -> reads inp c2 inp2.
Proof.
  intros [[-> ->]|(pre & a & -> & ->)] [H2|(pre2 & b & E2 & ->)].
  - left. exact H2.
  - destruct pre2; discriminate E2.
  - left. exact H2.
  - right. exists (pre +:+ String a pre2), b. split; [|reflexivity].
    rewrite E2, append_assoc. reflexivity.
Qed.

Lemma reads_range (inp : string) (c' : Z) (inp' : string) :
  reads inp c' inp' -> -1 <= c' <= 255.
Proof.
  intros [[-> _]|(pre & a & _ & ->)]; [unfold EOF; lia|].
  pose proof (Z_of_ascii_range a). lia.
Qed.

Lemma reads_suffix (inp : string) (c' : Z) (inp' : string) :
  reads inp c' inp' -> exists consumed, inp = consumed +:+ inp'.
Proof.
  intros [[_ ->]|(pre & a & -> & _)].
  - exists inp. symmetry. apply append_nil_r.
  - exists (pre +:+ String a EmptyString). rewrite append_assoc. reflexivity.
Qed.

Lemma reads_length (inp : string) (c' : Z) (inp' : string) :
  reads inp c' inp' -> c' <> EOF ->
  (String.length inp' < String.length inp)%nat.
Proof.
  intros [[-> _]|(pre & a & -> & _)] Hne; [contradiction|].
  rewrite length_append. simpl. lia.
Qed.

Lemma skip_spaces_reads (c : Z) (inp : string) (c' : Z) (inp' : string) :
  skip_spaces c inp = (c', inp') ->
  isspace c' = false /\ ((c' = c /\ inp' = inp) \/ reads inp c' inp').
Proof.
  revert c. induction inp as [|a rest IH]; intros c; simpl.
  - destruct (isspace c) eqn:Hc; intros [= <- <-].
    + split; [reflexivity|]. right. apply reads_end.
    + split; [exact Hc|]. left. split; reflexivity.
  - destruct (isspace c) eqn:Hc.
    + intros H. apply IH in H. destruct H as [Hs [[-> ->]|Hr]].
      * split; [exact Hs|]. right. apply reads_here.
      * split; [exact Hs|]. right. apply reads_String, Hr.
    + intros [= <- <-]. split; [exact Hc|]. left. split; reflexivity.
Qed.

Lemma read_identifier_reads (Str inp : string) (Str' : string) (c' : Z)
    (inp' : string) :
  read_identifier Str inp = (Str', c', inp') ->
  reads inp c' inp' /\ isalnum c' = false.
Proof.
  revert Str. induction inp as [|a rest IH]; intros Str; simpl.
  - intros [= <- <- <-]. split; [apply reads_end|reflexivity].
  - destruct (isalnum (Z_of_ascii a)) eqn:Ha.
    + intros H. apply IH in H. destruct H as [Hr Hc].
      split; [apply reads_String, Hr|exact Hc].
    + intros [= <- <- <-]. split; [apply reads_here|exact Ha].
Qed.

Lemma read_number_reads (NumStr : string) (c : Z) (inp : string)
    (NumStr' : string) (c' : Z) (inp' : string) :
  read_number NumStr c inp = (NumStr', c', inp') ->
  reads inp c' inp' /\ number_char c' = false.
Proof.
  revert NumStr c. induction inp as [|a rest IH]; intros NumStr c; simpl.
  - intros [= <- <- <-]. split; [apply reads_end|reflexivity].
  - fold (number_char (Z_of_ascii a)).
    destruct (number_char (Z_of_ascii a)) eqn:Ha.
    + intros H. apply IH in H. destruct H as [Hr Hc].
      split; [apply reads_String, Hr|exact Hc].
    + intros [= <- <- <-]. split; [apply reads_here|exact Ha].
Qed.

Lemma skip_line_reads (inp : string) (c' : Z) (inp' : string) :
  skip_line inp = (c', inp') -> reads inp c' inp'.
Proof.
  induction inp as [|a rest IH]; simpl.
  - intros [= <- <-]. apply reads_end.
  - destruct (negb (Z_of_ascii a =? EOF) && negb (Z_of_ascii a =? 10)
              && negb (Z_of_ascii a =? 13)).
    + intros H. apply reads_String, IH, H.
    + intros [= <- <-]. apply reads_here.
Qed.

Lemma gettok_char_reads (s : State) (t : Z) (s' : State) :
  gettok_char s = (t, s') -> LastChar s <> EOF ->
  t = LastChar s /\ reads (stdin s) (LastChar s') (stdin s').
Proof.
  unfold gettok_char, getchar. intros H Hne.
  apply Z.eqb_neq in Hne. rewrite Hne in H.
  destruct (stdin s) as [|a rest] eqn:Hin; injection H as <- <-; simpl.
  - rewrite Hin. split; [reflexivity|apply reads_end].
  - split; [reflexivity|apply reads_here].
Qed.

Lemma is_punctuation_intro (c : Z) :
  -1 <= c <= 255 -> c <> EOF -> isspace c = false -> isalpha c = false ->
  number_char c = false -> (c =? ch "#") = false ->
  is_punctuation c = true.
Proof.
  unfold is_punctuation, number_char, isalnum, EOF.
  intros Hr Hne Hs Ha Hn Hh.
  apply orb_false_iff in Hn. destruct Hn as [Hd Hdot].
  rewrite Hs, Ha, Hd, Hdot, Hh. simpl.
  rewrite !andb_true_r. apply andb_true_iff.
  split; [apply Z.leb_le|apply Z.leb_le]; lia.
Qed.

Lemma gettok_rec_reads (fuel : nat) (s : State) (t : Z) (s' : State) :
  gettok_rec fuel s = Some (t, s') -> LastChar s <> EOF ->
  reads (stdin s) (LastChar s') (stdin s') /\
  (LastChar_ok s -> is_enum_token t \/ is_punctuation t = true).
Proof.
  unfold LastChar_ok, is_enum_token.
  revert s. induction fuel as [|fuel IH]; intros s; [discriminate|].
  simpl. intros H Hne.
  destruct (skip_spaces (LastChar s) (stdin s)) as [c inp] eqn:Hsp.
  apply skip_spaces_reads in Hsp. destruct Hsp as [Hspace Hsp].
  assert (Hc : -1 <= LastChar s <= 255 -> -1 <= c <= 255).
  { intros Hok.
    destruct Hsp as [[-> _]|Hr]; [exact Hok|eapply reads_range, Hr]. }
  assert (Hstep : forall c' inp', reads inp c' inp' ->
                    reads (stdin s) c' inp').
  { intros c' inp' Hr. destruct Hsp as [[_ ->]|Hr0]; [exact Hr|].
    eapply reads_trans; eassumption. }
  destruct (isalpha c) eqn:Halpha.
  { destruct (read_identifier _ inp) as [[Str c'] inp'] eqn:Hid.
    apply read_identifier_reads in Hid. destruct Hid as [Hr _].
    repeat match type of H with
      | context [if ?b then _ else _] => destruct b
      end; injection H as <- <-; simpl; (split; [apply Hstep, Hr|tauto]). }
  fold (number_char c) in H. destruct (number_char c) eqn:Hnum.
  { destruct (read_number _ c inp) as [[NumStr c'] inp'] eqn:Hn.
    apply read_number_reads in Hn. destruct Hn as [Hr _].
    injection H as <- <-; simpl. split; [apply Hstep, Hr|tauto]. }
  destruct (c =? ch "#") eqn:Hhash.
  - destruct (skip_line inp) as [c' inp'] eqn:Hsl.
    apply skip_line_reads in Hsl.
    destruct (c' =? EOF) eqn:Hc'; simpl in H.
    + apply Z.eqb_eq in Hc'. subst c'.
      unfold gettok_char in H. simpl in H. injection H as <- <-. simpl.
      split; [apply Hstep, Hsl|tauto].
    + apply Z.eqb_neq in Hc'.
      apply IH in H; simpl; [|exact Hc'].
      simpl in H. destruct H as [Hr Ht]. split.
      * apply Hstep. eapply reads_trans; eassumption.
      * intros _. apply Ht. eapply reads_range, Hsl.
  - destruct (c =? EOF) eqn:HcE.
    + apply Z.eqb_eq in HcE. subst c.
      unfold gettok_char in H. simpl in H. injection H as <- <-. simpl.
      split; [|tauto].
      destruct Hsp as [[E _]|Hr]; [symmetry in E; contradiction|exact Hr].
    + apply Z.eqb_neq in HcE. injection H as H.
      apply gettok_char_reads in H; [|exact HcE]. simpl in H.
      destruct H as [-> Hr]. split.
      * destruct Hsp as [[_ ->]|Hr0]; [exact Hr|].
        (* the character returned was read, and one more after it *)
        destruct Hr0 as [[E _]|(pre & a & E1 & E2)]; [contradiction|].
        destruct Hr as [Hr|(pre2 & b & E3 & E4)]; [left; exact Hr|].
        right. exists (pre +:+ String a pre2), b. split; [|exact E4].
        rewrite E1, E3, append_assoc. reflexivity.
      * intros Hok. right. apply is_punctuation_intro; auto.
Qed.

(** X1. A call of [gettok] away from the end of the input reads on: the
    unread text afterwards is a proper rest of the unread text before, or
    the end has been reached; the distance to the end gets smaller;
    [LastChar] stays a value of [getchar]; and the token is one of the
    five of [enum Token] or a character between 0 and 255 that is no
    space, letter, digit, period or '#'. At the end of the input nothing
    changes any more. *)
Theorem gettok_advances (s : State) (t : Z) (s' : State) :
  gettok s = (t, s') -> LastChar_ok s ->
  LastChar_ok s' /\
  (exists consumed, stdin s = consumed +:+ stdin s') /\
  (is_enum_token t \/ is_punctuation t = true) /\
  (LastChar s <> EOF -> (lexer_measure s' < lexer_measure s)%nat) /\
  (LastChar s = EOF -> t = tok_eof /\ s' = s).
Proof.
  intros H Hok.
  destruct (Z.eq_dec (LastChar s) EOF) as [HE|HE].
  - rewrite (gettok_at_end s HE) in H. injection H as <- <-.
    split; [exact Hok|]. split; [exists EmptyString; reflexivity|].
    split; [left; left; reflexivity|]. split; [contradiction|auto].
  - apply gettok_rec_gettok in H.
    destruct (gettok_rec_reads _ _ _ _ H HE) as [Hr Ht].
    split; [eapply reads_range, Hr|].
    split; [eapply reads_suffix, Hr|]. split; [exact (Ht Hok)|].
    split; [|contradiction]. intros _. unfold lexer_measure.
    apply Z.eqb_neq in HE. rewrite HE.
    destruct (LastChar s' =? EOF) eqn:HE'; [lia|].
    apply Z.eqb_neq in HE'. pose proof (reads_length _ _ _ Hr HE'). lia.
Qed.

(** ** Lexer: the longest run is one token; blanks and comments vanish *)

Lemma gettok_rec_fuel_S (fuel : nat) (s : State) (r : Z * State) :
  gettok_rec fuel s = Some r -> gettok_rec (S fuel) s = Some r.
Proof.
  revert s. induction fuel as [|fuel IH]; intros s H; [discriminate|].
  remember (S fuel) as n eqn:Hn. simpl. subst n. simpl in H.
  destruct (skip_spaces (LastChar s) (stdin s)) as [c inp].
  destruct (isalpha c); [exact H|].
  destruct (isdigit c || (c =? ch "."))%bool; [exact H|].
  destruct (c =? ch "#"); [|exact H].
  destruct (skip_line inp) as [c' inp'].
  destruct (negb (c' =? EOF)); [|exact H].
  apply IH, H.
Qed.

Lemma gettok_rec_fuel_le (n m : nat) (s : State) (r : Z * State) :
  (n <= m)%nat -> gettok_rec n s = Some r -> gettok_rec m s = Some r.
Proof.
  intros Hle H. induction Hle as [|m Hle IH]; [exact H|].
  apply gettok_rec_fuel_S, IH.
Qed.

Lemma gettok_of_rec (fuel : nat) (s : State) (r : Z * State) :
  gettok_rec fuel s = Some r -> gettok s = r.
Proof.
  intros H. apply gettok_rec_gettok.
  destruct (gettok_rec_enough (S (String.length (stdin s))) s) as [r' Hr'];
    [lia|].
  rewrite Hr'. f_equal.
  assert (H1 : gettok_rec (fuel + S (String.length (stdin s))) s = Some r).
  { eapply gettok_rec_fuel_le; [|exact H]. lia. }
  assert (H2 : gettok_rec (fuel + S (String.length (stdin s))) s = Some r').
  { eapply gettok_rec_fuel_le; [|exact Hr']. lia. }
  congruence.
Qed.

Lemma set_lexer_twice (c1 : Z) (inp1 : string) (c2 : Z) (inp2 : string)
    (s : State) :
  set_LastChar c2 (set_stdin inp2 (set_LastChar c1 (set_stdin inp1 s))) =
  set_LastChar c2 (set_stdin inp2 s).
Proof. reflexivity. Qed.

(** [gettok] depends on [LastChar] and the unread text only through what
    is left of them once the blanks are skipped. *)
Lemma gettok_rec_skipped (fuel : nat) (s s2 : State) (c : Z) (inp : string) :
  skip_spaces (LastChar s) (stdin s) = (c, inp) ->
  skip_spaces (LastChar s2) (stdin s2) = (c, inp) ->
  set_LastChar c (set_stdin inp s2) = set_LastChar c (set_stdin inp s) ->
  gettok_rec fuel s2 = gettok_rec fuel s.
Proof.
  intros H1 H2 E. destruct fuel as [|fuel]; [reflexivity|].
  simpl. rewrite H1, H2, E. reflexivity.
Qed.

Lemma isalpha_not_space (c : Z) : isalpha c = true -> isspace c = false.
Proof.
  unfold isalpha, isspace. intros H.
  apply orb_true_iff in H.
  apply orb_false_iff. split; [apply andb_false_iff|apply Z.eqb_neq].
  - destruct H as [H|H]; apply andb_true_iff in H; destruct H as [H1 H2];
      apply Z.leb_le in H1, H2; right; apply Z.leb_gt; lia.
  - destruct H as [H|H]; apply andb_true_iff in H; destruct H as [H1 H2];
      apply Z.leb_le in H1, H2; lia.
Qed.

Lemma number_char_cases (c : Z) :
  number_char c = true -> 46 <= c <= 57.
Proof.
  unfold number_char, isdigit. intros H. apply orb_true_iff in H.
  destruct H as [H|H].
  - apply andb_true_iff in H. destruct H as [H1 H2].
    apply Z.leb_le in H1, H2. lia.
  - apply Z.eqb_eq in H. subst c. vm_compute. split; discriminate.
Qed.

Lemma number_char_not_space (c : Z) :
  number_char c = true -> isspace c = false /\ isalpha c = false.
Proof.
  intros H. apply number_char_cases in H. unfold isspace, isalpha. split.
  - apply orb_false_iff. split; [apply andb_false_iff|apply Z.eqb_neq; lia].
    right. apply Z.leb_gt. lia.
  - apply orb_false_iff. split; apply andb_false_iff; left; apply Z.leb_gt; lia.
Qed.

Lemma gettok_rec_S (fuel : nat) (s : State) :
  gettok_rec (S fuel) s =
  let (c, inp) := skip_spaces (LastChar s) (stdin s) in
  let s := set_LastChar c (set_stdin inp s) in
  if isalpha c then
    let '(Str, c', inp') :=
      read_identifier (String (ascii_of_Z c) EmptyString) inp in
    let s := set_LastChar c' (set_stdin inp' (set_IdentifierStr Str s)) in
    if String.eqb Str "def" then Some (tok_def, s)
    else if String.eqb Str "extern" then Some (tok_extern, s)
    else Some (tok_identifier, s)
  else if number_char c then
    let '(NumStr, c', inp') := read_number EmptyString c inp in
    let s := set_LastChar c' (set_stdin inp' s) in
    Some (tok_number, set_NumVal (strtod NumStr) s)
  else if c =? ch "#" then
    let (c', inp') := skip_line inp in
    let s := set_LastChar c' (set_stdin inp' s) in
    if negb (c' =? EOF) then gettok_rec fuel s
    else Some (gettok_char s)
  else Some (gettok_char s).
Proof. reflexivity. Qed.

Lemma ascii_of_Z_of_ascii (a : ascii) : ascii_of_Z (Z_of_ascii a) = a.
Proof.
  pose proof (Z_of_ascii_range a) as Hr. unfold ascii_of_Z.
  rewrite Z.mod_small by lia. unfold Z_of_ascii.
  rewrite N2Z.id. apply ascii_N_embedding.
Qed.

Lemma read_identifier_run (Str run rest : string) :
  string_forallb isalnum run = true -> stops isalnum rest = true ->
  read_identifier Str (run +:+ rest) =
    (Str +:+ run, fst (next_char rest), snd (next_char rest)).
Proof.
  revert Str. induction run as [|a run IH]; intros Str Hrun Hrest.
  - change (EmptyString +:+ rest) with rest. rewrite append_nil_r.
    destruct rest as [|b rest]; [reflexivity|].
    simpl in *. apply negb_true_iff in Hrest. rewrite Hrest. reflexivity.
  - simpl in Hrun. apply andb_true_iff in Hrun. destruct Hrun as [Ha Hrun].
    rewrite append_String. simpl. rewrite Ha, (IH _ Hrun Hrest).
    rewrite append_assoc. reflexivity.
Qed.

Lemma read_number_run (NumStr : string) (c : Z) (run rest : string) :
  string_forallb number_char run = true -> stops number_char rest = true ->
  read_number NumStr c (run +:+ rest) =
    (NumStr +:+ String (ascii_of_Z c) run, fst (next_char rest),
     snd (next_char rest)).
Proof.
  revert NumStr c. induction run as [|a run IH]; intros NumStr c Hrun Hrest.
  - change (EmptyString +:+ rest) with rest.
    destruct rest as [|b rest]; [reflexivity|].
    simpl in *. fold (number_char (Z_of_ascii b)).
    apply negb_true_iff in Hrest. rewrite Hrest. reflexivity.
  - simpl in Hrun. apply andb_true_iff in Hrun. destruct Hrun as [Ha Hrun].
    rewrite append_String. simpl. fold (number_char (Z_of_ascii a)).
    rewrite Ha, (IH _ _ Hrun Hrest), append_assoc, ascii_of_Z_of_ascii.
    reflexivity.
Qed.

Lemma skip_line_run (body rest : string) :
  string_forallb comment_char body = true -> stops comment_char rest = true ->
  skip_line (body +:+ rest) = next_char rest.
Proof.
  induction body as [|a body IH]; intros Hbody Hrest.
  - change (EmptyString +:+ rest) with rest.
    destruct rest as [|b rest]; [reflexivity|].
    simpl in *. fold (comment_char (Z_of_ascii b)).
    apply negb_true_iff in Hrest. rewrite Hrest. reflexivity.
  - simpl in Hbody. apply andb_true_iff in Hbody. destruct Hbody as [Ha Hbody].
    rewrite append_String. simpl. fold (comment_char (Z_of_ascii a)).
    rewrite Ha. apply IH; assumption.
Qed.

(** X2. Identifiers and keywords. With a letter in [LastChar], the letters
    and digits that follow it up to the first other character (or the end
    of the input) are taken into [IdentifierStr] together with it; the
    token is [tok_def] for the text "def", [tok_extern] for "extern" and
    [tok_identifier] for any other, and [LastChar] is left on the
    character after the run. *)
Theorem gettok_identifier (s : State) (run rest : string) :
  isalpha (LastChar s) = true ->
  stdin s = run +:+ rest ->
  string_forallb isalnum run = true -> stops isalnum rest = true ->
  let Str := String (ascii_of_Z (LastChar s)) run in
  gettok s =
    (if String.eqb Str "def" then tok_def
     else if String.eqb Str "extern" then tok_extern
     else tok_identifier,
     set_LastChar (fst (next_char rest))
       (set_stdin (snd (next_char rest)) (set_IdentifierStr Str s))).
Proof.
  intros Ha Hin Hrun Hrest Str. apply (gettok_of_rec 1).
  rewrite gettok_rec_S.
  rewrite (skip_spaces_nonspace _ _ (isalpha_not_space _ Ha)), Ha, Hin.
  cbv beta iota zeta.
  rewrite (read_identifier_run _ _ _ Hrun Hrest).
  change (String (ascii_of_Z (LastChar s)) EmptyString +:+ run) with Str.
  destruct (String.eqb Str "def"); [reflexivity|].
  destruct (String.eqb Str "extern"); reflexivity.
Qed.

(** X3. Numbers. With a digit or a period in [LastChar], the digits and
    periods that follow it up to the first other character (or the end of
    the input) make one [tok_number] together with it, however many
    periods there are; [NumVal] is [strtod] of that text. *)
Theorem gettok_number (s : State) (run rest : string) :
  number_char (LastChar s) = true ->
  stdin s = run +:+ rest ->
  string_forallb number_char run = true -> stops number_char rest = true ->
  gettok s =
    (tok_number,
     set_NumVal (strtod (String (ascii_of_Z (LastChar s)) run))
       (set_LastChar (fst (next_char rest))
          (set_stdin (snd (next_char rest)) s))).
Proof.
  intros Hn Hin Hrun Hrest. apply (gettok_of_rec 1).
  rewrite gettok_rec_S.
  destruct (number_char_not_space _ Hn) as [Hsp Hal].
  rewrite (skip_spaces_nonspace _ _ Hsp), Hal, Hn, Hin.
  cbv beta iota zeta.
  rewrite (read_number_run _ _ _ _ Hrun Hrest). reflexivity.
Qed.

(** X4. Blanks and comments. With a space character in [LastChar], [gettok]
    returns what it returns once the next character has been read in its
    place. With '#' in [LastChar], the characters up to the first line
    feed or carriage return are dropped and [gettok] returns what it
    returns with that line end in [LastChar]; a comment that the input
    ends in gives [tok_eof]. *)
Theorem gettok_skips (s : State) :
  (isspace (LastChar s) = true ->
     gettok s =
     gettok (set_LastChar (fst (next_char (stdin s)))
               (set_stdin (snd (next_char (stdin s))) s))) /\
  (forall body rest,
     LastChar s = ch "#" -> stdin s = body +:+ rest ->
     string_forallb comment_char body = true ->
     stops comment_char rest = true ->
     gettok s =
       match rest with
       | EmptyString =>
           (tok_eof, set_LastChar EOF (set_stdin EmptyString s))
       | String a rest' =>
           gettok (set_LastChar (Z_of_ascii a) (set_stdin rest' s))
       end).
Proof.
  split.
  - intros Hsp.
    set (s2 := set_LastChar (fst (next_char (stdin s)))
                 (set_stdin (snd (next_char (stdin s))) s)).
    destruct (skip_spaces (LastChar s) (stdin s)) as [c inp] eqn:Hsk.
    assert (Hsk2 : skip_spaces (LastChar s2) (stdin s2) = (c, inp)).
    { subst s2. simpl. destruct (stdin s) as [|a rest]; simpl in *.
      - rewrite Hsp in Hsk. exact Hsk.
      - rewrite Hsp in Hsk. exact Hsk. }
    destruct (gettok_rec_enough (S (String.length (stdin s))) s) as [r Hr];
      [lia|].
    rewrite (gettok_of_rec _ _ _ Hr).
    symmetry. eapply gettok_of_rec.
    rewrite (gettok_rec_skipped _ s s2 c inp Hsk Hsk2); [exact Hr|].
    reflexivity.
  - intros body rest Hc Hin Hbody Hrest.
    assert (Hstep : forall n,
              gettok_rec (S n) s =
              match rest with
              | EmptyString =>
                  Some (tok_eof, set_LastChar EOF (set_stdin EmptyString s))
              | String a rest' =>
                  gettok_rec n (set_LastChar (Z_of_ascii a) (set_stdin rest' s))
              end).
    { intros n. rewrite gettok_rec_S.
      rewrite Hc, skip_spaces_nonspace by reflexivity.
      change (isalpha (ch "#")) with false.
      change (number_char (ch "#")) with false.
      change (ch "#" =? ch "#") with true. cbv beta iota zeta.
      rewrite Hin, (skip_line_run _ _ Hbody Hrest).
      destruct rest as [|a rest']; [reflexivity|].
      cbn [next_char].
      pose proof (Z_of_ascii_range a) as Ha.
      replace (Z_of_ascii a =? EOF) with false
        by (symmetry; apply Z.eqb_neq; unfold EOF; lia).
      reflexivity. }
    destruct rest as [|a rest'].
    + apply (gettok_of_rec 1). apply Hstep.
    + set (s2 := set_LastChar (Z_of_ascii a) (set_stdin rest' s)).
      destruct (gettok_rec_enough (S (String.length (stdin s2))) s2)
        as [r Hr]; [lia|].
      rewrite (gettok_of_rec _ _ _ Hr).
      eapply gettok_of_rec. rewrite Hstep. exact Hr.
Qed.

(** ** Parser: what every step keeps, every operation keeps *)

Section StepInvariant.

Variable R : State -> State -> Prop.
Hypothesis R_refl : forall s, R s s.
Hypothesis R_trans : forall s1 s2 s3, R s1 s2 -> R s2 s3 -> R s1 s3.
Hypothesis R_getNextToken :
  forall s t s', getNextToken s = (t, s') -> R s s'.
Hypothesis R_GetTokPrecedence :
  forall s p s', GetTokPrecedence s = (p, s') -> R s s'.
Hypothesis R_put_stderr : forall v s, R s (put_stderr v s).
Hypothesis R_put_stdout : forall v s, R s (put_stdout v s).

Ltac step_facts :=
  repeat match goal with
    | H : getNextToken _ = (_, _) |- _ => apply R_getNextToken in H
    | H : GetTokPrecedence _ = (_, _) |- _ => apply R_GetTokPrecedence in H
    end.

Ltac step_chain :=
  solve [ apply R_refl
        | eassumption
        | apply R_put_stderr
        | apply R_put_stdout
        | eapply R_trans; [eassumption | step_chain] ].

Lemma parse_steps (fuel : nat) :
  (forall s r s', ParseExpression fuel s = Some (r, s') -> R s s') /\
  (forall s r s', ParseParenExpr fuel s = Some (r, s') -> R s s') /\
  (forall s r s', ParseIdentifierExpr fuel s = Some (r, s') -> R s s') /\
  (forall Args s r s', ParseCallArgs fuel Args s = Some (r, s') -> R s s') /\
  (forall s r s', ParsePrimary fuel s = Some (r, s') -> R s s') /\
  (forall ExprPrec LHS s r s',
     ParseBinOpRHS fuel ExprPrec LHS s = Some (r, s') -> R s s').
Proof.
  induction fuel as [|fuel (IHE & IHPar & IHId & IHArgs & IHPrim & IHBin)].
  { repeat split; intros; discriminate. }
  split; [|split; [|split; [|split; [|split]]]].
  - intros s r s' H. rewrite ParseExpression_S in H. split_body H.
    + apply IHBin in H. apply IHPrim in Heqo. step_chain.
    + injection H as <- <-. apply IHPrim in Heqo. exact Heqo.
  - intros s r s' H. rewrite ParseParenExpr_S in H. split_body H;
      step_facts;
      repeat match goal with
        | E : ParseExpression fuel _ = Some _ |- _ => apply IHE in E
        end;
      unfold LogError in H; injection H as <- <-; step_chain.
  - intros s r s' H. rewrite ParseIdentifierExpr_S in H. split_body H;
      step_facts;
      repeat match goal with
        | E : ParseCallArgs fuel _ _ = Some _ |- _ => apply IHArgs in E
        end;
      injection H as <- <-; step_chain.
  - intros Args s r s' H. rewrite ParseCallArgs_S in H. split_body H;
      step_facts;
      repeat match goal with
        | E : ParseExpression fuel _ = Some _ |- _ => apply IHE in E
        end;
      first [ apply IHArgs in H
            | unfold LogError in H; simpl in H; injection H as <- <- ];
      step_chain.
  - intros s r s' H. rewrite ParsePrimary_S in H. split_body H.
    + eapply IHId, H.
    + unfold ParseNumberExpr in H. split_body H. injection H as <- <-.
      step_facts. step_chain.
    + eapply IHPar, H.
    + unfold LogError in H. injection H as <- <-. step_chain.
  - intros ExprPrec LHS s r s' H. rewrite ParseBinOpRHS_S in H. split_body H;
      step_facts;
      repeat match goal with
        | E : ParsePrimary fuel _ = Some _ |- _ => apply IHPrim in E
        | E : ParseBinOpRHS fuel _ _ _ = Some _ |- _ => apply IHBin in E
        end;
      try (injection H as <- <-); step_chain.
Qed.

Lemma ParseExpression_steps (fuel : nat) (s : State) r (s' : State) :
  ParseExpression fuel s = Some (r, s') -> R s s'.
Proof. apply parse_steps. Qed.

Lemma ParsePrimary_steps (fuel : nat) (s : State) r (s' : State) :
  ParsePrimary fuel s = Some (r, s') -> R s s'.
Proof. apply parse_steps. Qed.

Lemma ParseBinOpRHS_steps (fuel : nat) (ExprPrec : Z) (LHS : ExprAST)
    (s : State) r (s' : State) :
  ParseBinOpRHS fuel ExprPrec LHS s = Some (r, s') -> R s s'.
Proof.
  destruct (parse_steps fuel) as (_ & _ & _ & _ & _ & HBin). apply HBin.
Qed.

Lemma ParseCallArgs_steps (fuel : nat) (Args : list ExprAST)
    (s : State) r (s' : State) :
  ParseCallArgs fuel Args s = Some (r, s') -> R s s'.
Proof.
  destruct (parse_steps fuel) as (_ & _ & _ & HArgs & _). apply HArgs.
Qed.

Lemma ParsePrototypeArgs_steps (fuel : nat) (ArgNames : list string)
    (s : State) r (s' : State) :
  ParsePrototypeArgs fuel ArgNames s = Some (r, s') -> R s s'.
Proof.
  revert ArgNames s. induction fuel as [|fuel IH]; intros ArgNames s H;
    [discriminate|].
  simpl in H. split_body H; step_facts.
  - apply IH in H. step_chain.
  - injection H as <- <-. step_chain.
Qed.

Lemma ParsePrototype_steps (fuel : nat) (s : State) r (s' : State) :
  ParsePrototype fuel s = Some (r, s') -> R s s'.
Proof.
  unfold ParsePrototype, LogErrorP, LogError. intros H. split_body H;
    step_facts;
    repeat match goal with
      | E : ParsePrototypeArgs _ _ _ = Some _ |- _ =>
          apply ParsePrototypeArgs_steps in E
      end;
    injection H as <- <-; step_chain.
Qed.

Lemma ParseDefinition_steps (fuel : nat) (s : State) r (s' : State) :
  ParseDefinition fuel s = Some (r, s') -> R s s'.
Proof.
  unfold ParseDefinition. intros H. split_body H; step_facts;
    repeat match goal with
      | E : ParsePrototype _ _ = Some _ |- _ => apply ParsePrototype_steps in E
      | E : ParseExpression _ _ = Some _ |- _ => apply ParseExpression_steps in E
      end;
    injection H as <- <-; step_chain.
Qed.

Lemma ParseTopLevelExpr_steps (fuel : nat) (s : State) r (s' : State) :
  ParseTopLevelExpr fuel s = Some (r, s') -> R s s'.
Proof.
  unfold ParseTopLevelExpr. intros H. split_body H;
    repeat match goal with
      | E : ParseExpression _ _ = Some _ |- _ => apply ParseExpression_steps in E
      end;
    injection H as <- <-; step_chain.
Qed.

Lemma ParseExtern_steps (fuel : nat) (s : State) r (s' : State) :
  ParseExtern fuel s = Some (r, s') -> R s s'.
Proof.
  unfold ParseExtern. intros H. split_body H; step_facts.
  apply ParsePrototype_steps in H. step_chain.
Qed.

Lemma snd_getNextToken_steps (s : State) : R s (snd (getNextToken s)).
Proof.
  destruct (getNextToken s) as [t s'] eqn:H. eapply R_getNextToken, H.
Qed.

Lemma HandleDefinition_steps (fuel : nat) (s s' : State) :
  HandleDefinition fuel s = Some s' -> R s s'.
Proof.
  unfold HandleDefinition. intros H. split_body H;
    match goal with
    | E : ParseDefinition _ _ = Some _ |- _ => apply ParseDefinition_steps in E
    end;
    injection H as <-;
    (eapply R_trans; [eassumption|]);
    [apply R_put_stdout | apply snd_getNextToken_steps].
Qed.

Lemma HandleExtern_steps (fuel : nat) (s s' : State) :
  HandleExtern fuel s = Some s' -> R s s'.
Proof.
  unfold HandleExtern. intros H. split_body H;
    match goal with
    | E : ParseExtern _ _ = Some _ |- _ => apply ParseExtern_steps in E
    end;
    injection H as <-;
    (eapply R_trans; [eassumption|]);
    [apply R_put_stdout | apply snd_getNextToken_steps].
Qed.

Lemma HandleTopLevelExpr_steps (fuel : nat) (s s' : State) :
  HandleTopLevelExpr fuel s = Some s' -> R s s'.
Proof.
  unfold HandleTopLevelExpr. intros H. split_body H;
    match goal with
    | E : ParseTopLevelExpr _ _ = Some _ |- _ =>
        apply ParseTopLevelExpr_steps in E
    end;
    injection H as <-;
    (eapply R_trans; [eassumption|]);
    [apply R_put_stdout | apply snd_getNextToken_steps].
Qed.

Lemma MainLoop_steps (fuel : nat) (s s' : State) :
  MainLoop fuel s = Some s' -> R s s'.
Proof.
  revert s. induction fuel as [|fuel IH]; intros s H; [discriminate|].
  rewrite MainLoop_S in H.
  pose proof (R_put_stdout "ready> " s) as Hp.
  set (s0 := put_stdout "ready> " s) in *.
  assert (Hs0 : R s0 s'); [|exact (R_trans _ _ _ Hp Hs0)].
  clearbody s0. clear Hp s. cbv zeta in H.
  destruct (CurTok s0 =? tok_eof).
  { injection H as <-. apply R_refl. }
  destruct (CurTok s0 =? ch ";").
  { apply IH in H. eapply R_trans; [|exact H].
    apply snd_getNextToken_steps. }
  destruct (CurTok s0 =? tok_def).
  { destruct (HandleDefinition fuel s0) as [s1|] eqn:HD; [|discriminate].
    apply HandleDefinition_steps in HD. apply IH in H.
    eapply R_trans; eassumption. }
  destruct (CurTok s0 =? tok_extern).
  { destruct (HandleExtern fuel s0) as [s1|] eqn:HD; [|discriminate].
    apply HandleExtern_steps in HD. apply IH in H.
    eapply R_trans; eassumption. }
  destruct (HandleTopLevelExpr fuel s0) as [s1|] eqn:HD; [|discriminate].
  apply HandleTopLevelExpr_steps in HD. apply IH in H.
  eapply R_trans; eassumption.
Qed.

Lemma state_after_steps (op : ParsingOperation) (fuel : nat) (s s' : State) :
  state_after op fuel s = Some s' -> R s s'.
Proof.
  destruct op; simpl; intros H;
    try (match type of H with
         | snd <$> ?x = Some _ =>
             destruct x as [[r s0]|] eqn:E; simpl in H; [|discriminate];
             injection H as <-
         end).
  - injection H as <-.
    destruct (GetTokPrecedence s) eqn:E. eapply R_GetTokPrecedence, E.
  - injection H as <-. unfold ParseNumberExpr.
    destruct (getNextToken s) eqn:E. eapply R_getNextToken, E.
  - destruct (parse_steps fuel) as (_ & HPar & _). eapply HPar, E.
  - destruct (parse_steps fuel) as (_ & _ & HId & _). eapply HId, E.
  - eapply ParsePrimary_steps, E.
  - eapply ParseBinOpRHS_steps, E.
  - eapply ParseExpression_steps, E.
  - eapply ParsePrototype_steps, E.
  - eapply ParseDefinition_steps, E.
  - eapply ParseTopLevelExpr_steps, E.
  - eapply ParseExtern_steps, E.
  - eapply HandleDefinition_steps, H.
  - eapply HandleExtern_steps, H.
  - eapply HandleTopLevelExpr_steps, H.
  - eapply MainLoop_steps, H.
Qed.

End StepInvariant.

(** ** Parser: every operation returns *)

Lemma gettok_measure (s : State) (t : Z) (s' : State) :
  gettok s = (t, s') ->
  (LastChar s = EOF -> t = tok_eof /\ s' = s) /\
  (LastChar s <> EOF -> (lexer_measure s' < lexer_measure s)%nat).
Proof.
  intros H. split.
  - intros HE. rewrite (gettok_at_end s HE) in H. injection H as <- <-. auto.
  - intros HE. apply gettok_rec_gettok in H.
    destruct (gettok_rec_reads _ _ _ _ H HE) as [Hr _].
    unfold lexer_measure. apply Z.eqb_neq in HE. rewrite HE.
    destruct (LastChar s' =? EOF) eqn:HE'; [lia|].
    apply Z.eqb_neq in HE'. pose proof (reads_length _ _ _ Hr HE'). lia.
Qed.

Lemma getNextToken_measure (s : State) (t : Z) (s' : State) :
  getNextToken s = (t, s') ->
  CurTok s' = t /\
  (parser_measure s' <= parser_measure s)%nat /\
  (0 < parser_measure s -> parser_measure s' < parser_measure s)%nat.
Proof.
  unfold getNextToken. destruct (gettok s) as [t0 s0] eqn:Hg.
  intros [= <- <-]. split; [reflexivity|].
  apply gettok_measure in Hg. destruct Hg as [Hend Hadv].
  unfold parser_measure. simpl.
  change (lexer_measure (set_CurTok t0 s0)) with (lexer_measure s0).
  destruct (Z.eq_dec (LastChar s) EOF) as [HE|HE].
  - destruct (Hend HE) as [-> ->].
    change (tok_eof =? tok_eof) with true.
    unfold lexer_measure. rewrite HE. change (EOF =? EOF) with true.
    destruct (CurTok s =? tok_eof); lia.
  - specialize (Hadv HE).
    destruct (t0 =? tok_eof), (CurTok s =? tok_eof); lia.
Qed.

Lemma GetTokPrecedence_measure (s : State) (p : Z) (s' : State) :
  GetTokPrecedence s = (p, s') ->
  parser_measure s' = parser_measure s /\ CurTok s' = CurTok s.
Proof.
  unfold GetTokPrecedence. destruct (negb (isascii (CurTok s))).
  - intros [= <- <-]. auto.
  - destruct (map_subscript 0 (BinopPrecedence s) (char_of_int (CurTok s)))
      as [TokPrec m].
    destruct (TokPrec <=? 0); intros [= <- <-]; auto.
Qed.

Lemma parser_measure_pos (s : State) :
  CurTok s <> tok_eof -> (0 < parser_measure s)%nat.
Proof.
  intros H. unfold parser_measure. apply Z.eqb_neq in H. rewrite H. lia.
Qed.

Ltac measure_step :=
  first [ intros; lia
        | intros ? ? ? H; apply getNextToken_measure in H; tauto
        | intros ? ? ? H; apply GetTokPrecedence_measure in H;
          destruct H as [-> _]; lia
        | intros; exact (le_n _) ].

(** No operation of the parser moves away from the end of the input. *)
Lemma state_after_measure (op : ParsingOperation) (fuel : nat) (s s' : State) :
  state_after op fuel s = Some s' ->
  (parser_measure s' <= parser_measure s)%nat.
Proof.
  apply (state_after_steps
           (fun s s' => (parser_measure s' <= parser_measure s)%nat));
    measure_step.
Qed.

Lemma ParseExpression_measure (fuel : nat) (s : State) r (s' : State) :
  ParseExpression fuel s = Some (r, s') ->
  (parser_measure s' <= parser_measure s)%nat.
Proof.
  apply (ParseExpression_steps
           (fun s s' => (parser_measure s' <= parser_measure s)%nat));
    measure_step.
Qed.

Lemma ParsePrimary_measure (fuel : nat) (s : State) r (s' : State) :
  ParsePrimary fuel s = Some (r, s') ->
  (parser_measure s' <= parser_measure s)%nat.
Proof.
  apply (ParsePrimary_steps
           (fun s s' => (parser_measure s' <= parser_measure s)%nat));
    measure_step.
Qed.

Lemma ParseBinOpRHS_measure (fuel : nat) (ExprPrec : Z) (LHS : ExprAST)
    (s : State) r (s' : State) :
  ParseBinOpRHS fuel ExprPrec LHS s = Some (r, s') ->
  (parser_measure s' <= parser_measure s)%nat.
Proof.
  apply (ParseBinOpRHS_steps
           (fun s s' => (parser_measure s' <= parser_measure s)%nat));
    measure_step.
Qed.

Lemma ParseCallArgs_measure (fuel : nat) (Args : list ExprAST) (s : State)
    r (s' : State) :
  ParseCallArgs fuel Args s = Some (r, s') ->
  (parser_measure s' <= parser_measure s)%nat.
Proof.
  apply (ParseCallArgs_steps
           (fun s s' => (parser_measure s' <= parser_measure s)%nat));
    measure_step.
Qed.

Lemma ParsePrototype_measure (fuel : nat) (s : State) r (s' : State) :
  ParsePrototype fuel s = Some (r, s') ->
  (parser_measure s' <= parser_measure s)%nat.
Proof.
  apply (ParsePrototype_steps
           (fun s s' => (parser_measure s' <= parser_measure s)%nat));
    measure_step.
Qed.

Ltac measure_facts :=
  repeat match goal with
    | H : getNextToken _ = (_, _) |- _ =>
        apply getNextToken_measure in H; destruct H as (? & ? & ?)
    | H : GetTokPrecedence _ = (_, _) |- _ =>
        apply GetTokPrecedence_measure in H; destruct H as (? & ?)
    | H : ParseExpression _ _ = Some _ |- _ =>
        apply ParseExpression_measure in H
    | H : ParsePrimary _ _ = Some _ |- _ =>
        apply ParsePrimary_measure in H
    | H : ParseBinOpRHS _ _ _ _ = Some _ |- _ =>
        apply ParseBinOpRHS_measure in H
    | H : ParseCallArgs _ _ _ = Some _ |- _ =>
        apply ParseCallArgs_measure in H
    | H : ParsePrototype _ _ = Some _ |- _ =>
        apply ParsePrototype_measure in H
    end.

Lemma Zeqb_tok (x y : Z) : (x =? y) = true -> y <> tok_eof -> x <> tok_eof.
Proof. intros H. apply Z.eqb_eq in H. congruence. Qed.

(** A primary expression that is parsed has taken at least one token. *)
Lemma ParsePrimary_consumes (fuel : nat) (s : State) (e : ExprAST)
    (s' : State) :
  ParsePrimary fuel s = Some (Some e, s') ->
  (parser_measure s' < parser_measure s)%nat.
Proof.
  destruct fuel as [|fuel]; [discriminate|].
  rewrite ParsePrimary_S.
  destruct (CurTok s =? tok_identifier) eqn:T1.
  { pose proof (parser_measure_pos s
                  (Zeqb_tok _ _ T1 ltac:(discriminate))) as Hpos.
    destruct fuel as [|fuel]; [discriminate|].
    rewrite ParseIdentifierExpr_S. intros H. split_body H.
    all: measure_facts; injection H as <- <-; lia. }
  destruct (CurTok s =? tok_number) eqn:T2.
  { pose proof (parser_measure_pos s
                  (Zeqb_tok _ _ T2 ltac:(discriminate))) as Hpos.
    unfold ParseNumberExpr. intros H. split_body H.
    measure_facts. injection H as <- <-. lia. }
  destruct (CurTok s =? ch "(") eqn:T3; [|discriminate].
  pose proof (parser_measure_pos s
                (Zeqb_tok _ _ T3 ltac:(discriminate))) as Hpos.
  destruct fuel as [|fuel]; [discriminate|].
  rewrite ParseParenExpr_S. intros H. split_body H.
  measure_facts. injection H as <- <-. lia.
Qed.

Lemma ParseExpression_consumes (fuel : nat) (s : State) (e : ExprAST)
    (s' : State) :
  ParseExpression fuel s = Some (Some e, s') ->
  (parser_measure s' < parser_measure s)%nat.
Proof.
  destruct fuel as [|fuel]; [discriminate|].
  rewrite ParseExpression_S. intros H. split_body H.
  apply ParsePrimary_consumes in Heqo. measure_facts. lia.
Qed.

Lemma parse_returns (fuel : nat) :
  (forall s, (4 * parser_measure s + 4 <= fuel)%nat ->
             is_Some (ParseExpression fuel s)) /\
  (forall s, (0 < parser_measure s)%nat ->
             (4 * parser_measure s + 2 <= fuel)%nat ->
             is_Some (ParseParenExpr fuel s)) /\
  (forall s, (4 * parser_measure s + 2 <= fuel)%nat ->
             is_Some (ParseIdentifierExpr fuel s)) /\
  (forall Args s, (4 * parser_measure s + 5 <= fuel)%nat ->
                  is_Some (ParseCallArgs fuel Args s)) /\
  (forall s, (4 * parser_measure s + 3 <= fuel)%nat ->
             is_Some (ParsePrimary fuel s)) /\
  (forall ExprPrec LHS s, (4 * parser_measure s + 4 <= fuel)%nat ->
                          is_Some (ParseBinOpRHS fuel ExprPrec LHS s)).
Proof.
  induction fuel as [|fuel (IHE & IHPar & IHId & IHArgs & IHPrim & IHBin)].
  { repeat split; intros; lia. }
  split; [|split; [|split; [|split; [|split]]]].
  - intros s Hf. rewrite ParseExpression_S.
    destruct (IHPrim s) as [[[LHS|] s1] E1]; [lia| |]; rewrite E1; [|eauto].
    apply ParsePrimary_consumes in E1. apply IHBin. lia.
  - intros s Hpos Hf. rewrite ParseParenExpr_S.
    destruct (getNextToken s) as [t s1] eqn:N1. measure_facts.
    destruct (IHE s1) as [[[V|] s2] E2]; [lia| |]; rewrite E2; [|eauto].
    destruct (negb (CurTok s2 =? ch ")")); [eauto|].
    destruct (getNextToken s2); eauto.
  - intros s Hf. rewrite ParseIdentifierExpr_S. cbv zeta.
    destruct (getNextToken s) as [t s1] eqn:N1.
    destruct (negb (CurTok s1 =? ch "(")) eqn:T1; [eauto|].
    apply negb_false_iff in T1.
    pose proof (parser_measure_pos s1
                  (Zeqb_tok _ _ T1 ltac:(discriminate))) as Hpos.
    destruct (getNextToken s1) as [t2 s2] eqn:N2. measure_facts.
    destruct (negb (CurTok s2 =? ch ")")).
    + destruct (IHArgs [] s2) as [[[Args|] s3] E3]; [lia| |]; rewrite E3;
        [|eauto].
      destruct (getNextToken s3); eauto.
    + destruct (getNextToken s2); eauto.
  - intros Args s Hf. rewrite ParseCallArgs_S.
    destruct (IHE s) as [[[Arg|] s1] E1]; [lia| |]; rewrite E1; [|eauto].
    apply ParseExpression_consumes in E1.
    destruct (CurTok s1 =? ch ")"); [eauto|].
    destruct (negb (CurTok s1 =? ch ",")); [eauto|].
    destruct (getNextToken s1) as [t2 s2] eqn:N2. measure_facts.
    apply IHArgs. lia.
  - intros s Hf. rewrite ParsePrimary_S.
    destruct (CurTok s =? tok_identifier); [apply IHId; lia|].
    destruct (CurTok s =? tok_number); [eauto|].
    destruct (CurTok s =? ch "(") eqn:T3; [|eauto].
    apply IHPar; [|lia].
    apply parser_measure_pos. eapply Zeqb_tok; [exact T3|discriminate].
  - intros ExprPrec LHS s Hf. rewrite ParseBinOpRHS_S.
    destruct (GetTokPrecedence s) as [TokPrec s1] eqn:G1.
    destruct (TokPrec <? ExprPrec); [eauto|]. cbv zeta.
    destruct (getNextToken s1) as [t2 s2] eqn:N2. measure_facts.
    destruct (IHPrim s2) as [[[RHS|] s3] E3]; [lia| |]; rewrite E3; [|eauto].
    apply ParsePrimary_consumes in E3.
    destruct (GetTokPrecedence s3) as [NextPrec s4] eqn:G4. measure_facts.
    destruct (TokPrec <? NextPrec).
    + destruct (IHBin (TokPrec + 1) RHS s4) as [[[RHS'|] s5] E5]; [lia| |];
        rewrite E5; [|eauto].
      measure_facts. apply IHBin. lia.
    + apply IHBin. lia.
Qed.

Lemma ParsePrototypeArgs_returns (fuel : nat) (ArgNames : list string)
    (s : State) :
  (parser_measure s + 1 <= fuel)%nat ->
  is_Some (ParsePrototypeArgs fuel ArgNames s).
Proof.
  revert ArgNames s. induction fuel as [|fuel IH]; intros ArgNames s Hf;
    [lia|].
  simpl. destruct (getNextToken s) as [t s1] eqn:N1.
  destruct (t =? tok_identifier) eqn:T; [|eauto].
  apply getNextToken_measure in N1. destruct N1 as (Hc & Hle & Hlt).
  assert (Hpos : (0 < parser_measure s1)%nat).
  { apply parser_measure_pos. rewrite Hc.
    eapply Zeqb_tok; [exact T|discriminate]. }
  apply IH. lia.
Qed.

Lemma ParsePrototype_returns (fuel : nat) (s : State) :
  (parser_measure s + 1 <= fuel)%nat -> is_Some (ParsePrototype fuel s).
Proof.
  intros Hf. unfold ParsePrototype.
  destruct (negb (CurTok s =? tok_identifier)); [eauto|].
  destruct (getNextToken s) as [t s1] eqn:N1. measure_facts.
  destruct (negb (CurTok s1 =? ch "(")); [eauto|].
  destruct (ParsePrototypeArgs_returns fuel [] s1) as [[ArgNames s2] E2];
    [lia|].
  rewrite E2. destruct (negb (CurTok s2 =? ch ")")); [eauto|].
  destruct (getNextToken s2); eauto.
Qed.

(** X6. Termination of the parser. Every parsing function returns, with a
    tree or with a null pointer, within an amount of fuel that is linear
    in what is left of the input: four units for each token still to
    come (twice the unread characters) and four more. *)
Theorem parsers_return (s : State) :
  let fuel := (4 * parser_measure s + 4)%nat in
  is_Some (ParsePrimary fuel s) /\
  is_Some (ParseExpression fuel s) /\
  (forall ExprPrec LHS, is_Some (ParseBinOpRHS fuel ExprPrec LHS s)) /\
  is_Some (ParsePrototype fuel s) /\
  is_Some (ParseDefinition fuel s) /\
  is_Some (ParseExtern fuel s) /\
  is_Some (ParseTopLevelExpr fuel s).
Proof.
  intros fuel.
  destruct (parse_returns fuel) as (HE & _ & _ & _ & HPrim & HBin).
  assert (HPE : forall s1, (parser_measure s1 <= parser_measure s)%nat ->
                           is_Some (ParseExpression fuel s1)).
  { intros s1 Hle. apply (proj1 (parse_returns fuel)). subst fuel. lia. }
  assert (HPP : forall s1, (parser_measure s1 <= parser_measure s)%nat ->
                           is_Some (ParsePrototype fuel s1)).
  { intros s1 Hle. apply ParsePrototype_returns. subst fuel. lia. }
  split; [apply HPrim; subst fuel; lia|].
  split; [apply HPE; lia|].
  split; [intros; apply HBin; subst fuel; lia|].
  split; [apply HPP; lia|].
  split; [|split].
  - unfold ParseDefinition. destruct (getNextToken s) as [t s1] eqn:N1.
    measure_facts.
    destruct (HPP s1) as [[[P|] s2] E2]; [lia| |]; rewrite E2; [|eauto].
    measure_facts.
    destruct (HPE s2) as [[[E|] s3] E3]; [lia| |]; rewrite E3; eauto.
  - unfold ParseExtern. destruct (getNextToken s) as [t s1] eqn:N1.
    measure_facts. apply HPP. lia.
  - unfold ParseTopLevelExpr.
    destruct (HPE s) as [[[E|] s1] E1]; [lia| |]; rewrite E1; eauto.
Qed.

(** ** Top level: the loop ends, at the end of the input *)

Lemma ParseDefinition_returns (fuel : nat) (s : State) :
  (4 * parser_measure s + 4 <= fuel)%nat -> is_Some (ParseDefinition fuel s).
Proof.
  intros Hf. unfold ParseDefinition.
  destruct (getNextToken s) as [t s1] eqn:N1. measure_facts.
  destruct (ParsePrototype_returns fuel s1) as [[[P|] s2] E2]; [lia| |];
    rewrite E2; [|eauto].
  measure_facts.
  destruct (proj1 (parse_returns fuel) s2) as [[[E|] s3] E3]; [lia| |];
    rewrite E3; eauto.
Qed.

Lemma ParseExtern_returns (fuel : nat) (s : State) :
  (4 * parser_measure s + 4 <= fuel)%nat -> is_Some (ParseExtern fuel s).
Proof.
  intros Hf. unfold ParseExtern.
  destruct (getNextToken s) as [t s1] eqn:N1. measure_facts.
  apply ParsePrototype_returns. lia.
Qed.

Lemma ParseTopLevelExpr_returns (fuel : nat) (s : State) :
  (4 * parser_measure s + 4 <= fuel)%nat -> is_Some (ParseTopLevelExpr fuel s).
Proof.
  intros Hf. unfold ParseTopLevelExpr.
  destruct (proj1 (parse_returns fuel) s) as [[[E|] s1] E1]; [lia| |];
    rewrite E1; eauto.
Qed.

Lemma snd_getNextToken_measure (s : State) :
  (parser_measure (snd (getNextToken s)) <= parser_measure s)%nat /\
  (0 < parser_measure s ->
   parser_measure (snd (getNextToken s)) < parser_measure s)%nat.
Proof.
  destruct (getNextToken s) as [t s1] eqn:N1. measure_facts. simpl. auto.
Qed.

(** Each of the three handlers returns, and has taken at least one token
    unless the parser was at the end of the input already. *)
Lemma Handle_returns (fuel : nat) (s : State) :
  (4 * parser_measure s + 4 <= fuel)%nat ->
  (exists s', HandleDefinition fuel s = Some s' /\
     (0 < parser_measure s -> parser_measure s' < parser_measure s)%nat) /\
  (exists s', HandleExtern fuel s = Some s' /\
     (0 < parser_measure s -> parser_measure s' < parser_measure s)%nat) /\
  (exists s', HandleTopLevelExpr fuel s = Some s' /\
     (0 < parser_measure s -> parser_measure s' < parser_measure s)%nat).
Proof.
  intros Hf. split; [|split].
  - unfold HandleDefinition.
    destruct (ParseDefinition_returns fuel s Hf) as [[r s1] E1]. rewrite E1.
    assert (Hlt : (0 < parser_measure s ->
                   parser_measure s1 < parser_measure s)%nat).
    { unfold ParseDefinition in E1. split_body E1; measure_facts;
        injection E1 as <- <-; lia. }
    destruct r as [F|]; eexists; (split; [reflexivity|]).
    + exact Hlt.
    + pose proof (snd_getNextToken_measure s1). lia.
  - unfold HandleExtern.
    destruct (ParseExtern_returns fuel s Hf) as [[r s1] E1]. rewrite E1.
    assert (Hlt : (0 < parser_measure s ->
                   parser_measure s1 < parser_measure s)%nat).
    { unfold ParseExtern in E1. split_body E1; measure_facts. lia. }
    destruct r as [F|]; eexists; (split; [reflexivity|]).
    + exact Hlt.
    + pose proof (snd_getNextToken_measure s1). lia.
  - unfold HandleTopLevelExpr.
    destruct (ParseTopLevelExpr_returns fuel s Hf) as [[r s1] E1]. rewrite E1.
    unfold ParseTopLevelExpr in E1.
    destruct (ParseExpression fuel s) as [[[E|] s2]|] eqn:E2;
      [| |discriminate]; injection E1 as <- <-;
      eexists; (split; [reflexivity|]).
    + apply ParseExpression_consumes in E2. intros _. exact E2.
    + measure_facts. pose proof (snd_getNextToken_measure s2). lia.
Qed.

Lemma MainLoop_returns (fuel : nat) (s : State) :
  (4 * parser_measure s + 5 <= fuel)%nat ->
  exists s', MainLoop fuel s = Some s' /\ CurTok s' = tok_eof.
Proof.
  revert s. induction fuel as [|fuel IH]; intros s Hf; [lia|].
  rewrite MainLoop_S.
  assert (Hm : parser_measure (put_stdout "ready> " s) = parser_measure s)
    by reflexivity.
  set (s0 := put_stdout "ready> " s) in *. clearbody s0. cbv zeta.
  destruct (CurTok s0 =? tok_eof) eqn:T0.
  { apply Z.eqb_eq in T0. eauto. }
  assert (Hpos : (0 < parser_measure s0)%nat).
  { apply parser_measure_pos. apply Z.eqb_neq, T0. }
  destruct (Handle_returns fuel s0) as (HD & HE & HT); [lia|].
  destruct (CurTok s0 =? ch ";").
  { apply IH. pose proof (snd_getNextToken_measure s0). lia. }
  destruct (CurTok s0 =? tok_def).
  { destruct HD as (s1 & -> & Hlt). apply IH. lia. }
  destruct (CurTok s0 =? tok_extern).
  { destruct HE as (s1 & -> & Hlt). apply IH. lia. }
  destruct HT as (s1 & -> & Hlt). apply IH. lia.
Qed.

Lemma lookahead_ok_getNextToken (s : State) (t : Z) (s' : State) :
  getNextToken s = (t, s') -> lookahead_ok s -> lookahead_ok s'.
Proof.
  unfold getNextToken, lookahead_ok.
  destruct (gettok s) as [t0 s0] eqn:Hg. intros [= <- <-] [HJ HK]. simpl.
  pose proof (gettok_spec _ _ _ Hg) as (_ & Heof & _).
  split; [|exact Heof].
  destruct (Z.eq_dec (LastChar s) EOF) as [HE|HE].
  - rewrite (gettok_at_end s HE) in Hg. injection Hg as _ <-. exact HJ.
  - apply gettok_rec_gettok in Hg.
    destruct (gettok_rec_reads _ _ _ _ Hg HE) as [[[_ Hr]|(pre & a & _ & Hr)] _].
    + intros _. exact Hr.
    + intros HE'. pose proof (Z_of_ascii_range a). unfold EOF in HE'. lia.
Qed.

Lemma lookahead_ok_GetTokPrecedence (s : State) (p : Z) (s' : State) :
  GetTokPrecedence s = (p, s') -> lookahead_ok s -> lookahead_ok s'.
Proof.
  unfold GetTokPrecedence. destruct (negb (isascii (CurTok s))).
  - intros [= <- <-]. auto.
  - destruct (map_subscript 0 (BinopPrecedence s) (char_of_int (CurTok s)))
      as [TokPrec m].
    destruct (TokPrec <=? 0); intros [= <- <-]; auto.
Qed.

(** The lookahead stays in agreement with the lexer under every
    operation of the parser. *)
Lemma state_after_lookahead_ok (op : ParsingOperation) (fuel : nat)
    (s s' : State) :
  state_after op fuel s = Some s' -> lookahead_ok s -> lookahead_ok s'.
Proof.
  apply (state_after_steps (fun s s' => lookahead_ok s -> lookahead_ok s')).
  - auto.
  - auto.
  - apply lookahead_ok_getNextToken.
  - apply lookahead_ok_GetTokPrecedence.
  - auto.
  - auto.
Qed.

Lemma lookahead_ok_entering (input : string) :
  lookahead_ok (entering_MainLoop input).
Proof.
  unfold entering_MainLoop.
  destruct (getNextToken (put_stdout "ready> "
              (install_precedences (start input)))) as [t s1] eqn:N.
  simpl. apply (lookahead_ok_getNextToken _ _ _ N).
  split; discriminate.
Qed.

Lemma parser_measure_entering (input : string) :
  (parser_measure (entering_MainLoop input) <= 2 * String.length input + 3)%nat.
Proof.
  unfold entering_MainLoop.
  destruct (getNextToken (put_stdout "ready> "
              (install_precedences (start input)))) as [t s1] eqn:N.
  measure_facts. simpl.
  assert (Hs : parser_measure (put_stdout "ready> "
                 (install_precedences (start input))) =
               (2 * String.length input + 3)%nat).
  { unfold parser_measure, lexer_measure. simpl. lia. }
  lia.
Qed.

(** X7. Termination of the driver. From any state, [MainLoop] returns within
    four units of fuel for each token still to come and five more, and
    when it returns the current token is the end token. *)
Theorem MainLoop_terminates (s : State) (n : nat) :
  exists s',
    MainLoop (4 * parser_measure s + 5 + n) s = Some s' /\
    CurTok s' = tok_eof.
Proof. apply MainLoop_returns. lia. Qed.

(** X8. The whole program. On every input text [main] returns, within
    [8 * length + 17] units of fuel, and it returns only when all of the
    input has been read: no character is unread, [LastChar] holds [EOF]
    and the current token is the end token. *)
Theorem main_terminates (input : string) (n : nat) :
  exists s',
    main (8 * String.length input + 17 + n) (start input) = Some s' /\
    CurTok s' = tok_eof /\ LastChar s' = EOF /\ stdin s' = EmptyString.
Proof.
  pose proof (parser_measure_entering input) as Hm.
  destruct (MainLoop_returns (8 * String.length input + 17 + n)
              (entering_MainLoop input)) as (s' & Hs' & Heof); [lia|].
  exists s'. split; [|split; [exact Heof|]].
  - unfold main. unfold entering_MainLoop in Hs'.
    destruct (getNextToken (put_stdout "ready> "
                (install_precedences (start input)))) as [t s1].
    exact Hs'.
  - pose proof (state_after_lookahead_ok DoMainLoop _ _ _ Hs'
                  (lookahead_ok_entering input)) as [HJ HK].
    split; [apply HK, Heof|apply HJ, HK, Heof].
Qed.

(** ** Parser: one diagnostic for a failure, none for a success *)










(** ** Code generator: induction on the tree *)

Lemma ExprAST_nested_ind (P : ExprAST -> Prop) :
  (forall Val, P (NumberExprAST Val)) ->
  (forall Name, P (VariableExprAST Name)) ->
  (forall Op LHS RHS, P LHS -> P RHS -> P (BinaryExprAST Op LHS RHS)) ->
  (forall Callee Args, Forall P Args -> P (CallExprAST Callee Args)) ->
  forall e, P e.
Proof.
  intros HN HV HB HC. fix F 1. intros [Val|Name|Op LHS RHS|Callee Args].
  - apply HN.
  - apply HV.
  - apply HB; apply F.
  - apply HC. induction Args as [|a Args IH]; constructor; [apply F|exact IH].
Qed.

Lemma codegen_CallExprAST_args (Callee : string) (Args : list ExprAST)
    (s : State) (M : Module_) :
  TheModule s = Some M ->
  codegen (CallExprAST Callee Args) s =
  match getFunction M Callee with
  | None => Some (LogErrorV "unknown function referenced." s)
  | Some CalleeF =>
      if negb (arg_size CalleeF =? length Args)%nat
      then Some (LogErrorV "Incorrect number of arguments passed." s)
      else
        match codegen_args Args [] s with
        | None => None
        | Some (None, s1) => Some (None, s1)
        | Some (Some ArgsV, s1) =>
            Some (Builder_Insert (Call CalleeF ArgsV "calltmp") s1)
        end
  end.
Proof. intros HM. rewrite (codegen_CallExprAST_unfold _ _ _ _ HM). reflexivity. Qed.

Lemma codegen_CallExprAST_null_module (Callee : string) (Args : list ExprAST)
    (s : State) :
  TheModule s = None -> codegen (CallExprAST Callee Args) s = None.
Proof. intros HM. simpl. rewrite HM. reflexivity. Qed.

Lemma codegen_args_cons (a : ExprAST) (rest : list ExprAST)
    (ArgsV : list Value) (s : State) :
  codegen_args (a :: rest) ArgsV s =
  match codegen a s with
  | None => None
  | Some (None, s1) => Some (None, s1)
  | Some (Some v, s1) => codegen_args rest (ArgsV ++ [v]) s1
  end.
Proof. reflexivity. Qed.

Lemma codegen_BinaryExprAST_eq (Op : Z) (LHS RHS : ExprAST) (s : State) :
  codegen (BinaryExprAST Op LHS RHS) s =
  match codegen LHS s with
  | None => None
  | Some (L, s1) =>
      match codegen RHS s1 with
      | None => None
      | Some (R, s2) =>
          match L, R with
          | Some l, Some r => Some (BinaryExprAST_emit Op l r s2)
          | _, _ => Some (None, s2)
          end
      end
  end.
Proof. reflexivity. Qed.

(** ** Code generator: what it leaves alone *)

Lemma codegen_frame_refl (s : State) : codegen_frame s s.
Proof.
  unfold codegen_frame. split; [repeat split|].
  split; [exists []; symmetry; apply app_nil_r|].
  split; [exists []; symmetry; apply app_nil_r|]. auto.
Qed.

Lemma codegen_frame_trans (s1 s2 s3 : State) :
  codegen_frame s1 s2 -> codegen_frame s2 s3 -> codegen_frame s1 s3.
Proof.
  unfold codegen_frame.
  intros (E12 & [b1 B12] & [d1 D12] & N12) (E23 & [b2 B23] & [d2 D23] & N23).
  split; [intuition congruence|].
  split; [exists (b1 ++ b2); rewrite B23, B12, app_assoc; reflexivity|].
  split; [exists (d1 ++ d2); rewrite D23, D12, app_assoc; reflexivity|].
  intros k. destruct (N12 k) as [E|[N1 Z2]], (N23 k) as [E'|[N2 Z3]].
  - left. congruence.
  - right. split; congruence.
  - right. split; congruence.
  - congruence.
Qed.

Lemma Builder_Insert_frame (I : Instruction) (s : State) :
  codegen_frame s (snd (Builder_Insert I s)).
Proof.
  unfold codegen_frame. simpl. split; [repeat split|].
  split; [eexists; reflexivity|].
  split; [exists []; symmetry; apply app_nil_r|]. auto.
Qed.

Lemma LogErrorV_frame (Str : string) (s : State) :
  codegen_frame s (snd (LogErrorV Str s)).
Proof.
  unfold codegen_frame. simpl. split; [repeat split|].
  split; [exists []; symmetry; apply app_nil_r|].
  split; [eexists; reflexivity|]. auto.
Qed.

Lemma VariableExprAST_codegen_frame (Name : string) (s : State) :
  codegen_frame s (snd (VariableExprAST_codegen Name s)).
Proof.
  unfold VariableExprAST_codegen, map_subscript.
  destruct (NamedValues s !! Name) as [[v|]|] eqn:Hn; simpl.
  - replace (set_NamedValues (NamedValues s) s) with s by (destruct s; reflexivity).
    apply codegen_frame_refl.
  - unfold codegen_frame. simpl. split; [repeat split|].
    split; [exists []; symmetry; apply app_nil_r|].
    split; [eexists; reflexivity|]. auto.
  - unfold codegen_frame. simpl. split; [repeat split|].
    split; [exists []; symmetry; apply app_nil_r|].
    split; [eexists; reflexivity|].
    intros k. destruct (decide (Name = k)) as [<-|Hne].
    + right. rewrite lookup_insert_eq. auto.
    + left. apply lookup_insert_ne, Hne.
Qed.

Lemma BinaryExprAST_emit_frame (Op : Z) (L R : Value) (s : State) :
  codegen_frame s (snd (BinaryExprAST_emit Op L R s)).
Proof.
  unfold BinaryExprAST_emit.
  destruct (Op =? ch "+"); [apply Builder_Insert_frame|].
  destruct (Op =? ch "-"); [apply Builder_Insert_frame|].
  destruct (Op =? ch "*"); [apply Builder_Insert_frame|].
  destruct (Op =? ch "<"); [|apply LogErrorV_frame].
  eapply codegen_frame_trans; [apply (Builder_Insert_frame (FCmpULT L R "cmptmp"))|].
  apply Builder_Insert_frame.
Qed.

Lemma codegen_args_frame (Args : list ExprAST) :
  Forall (fun e => forall s v s', codegen e s = Some (v, s') ->
                                  codegen_frame s s') Args ->
  forall ArgsV s r s',
    codegen_args Args ArgsV s = Some (r, s') -> codegen_frame s s'.
Proof.
  induction 1 as [|a Args Ha _ IH]; intros ArgsV s r s' H.
  - injection H as <- <-. apply codegen_frame_refl.
  - rewrite codegen_args_cons in H.
    destruct (codegen a s) as [[[v|] s1]|] eqn:E; [| |discriminate].
    + apply Ha in E. apply IH in H. eapply codegen_frame_trans; eassumption.
    + injection H as <- <-. eapply Ha, E.
Qed.

Lemma codegen_keeps (e : ExprAST) :
  forall s v s', codegen e s = Some (v, s') -> codegen_frame s s'.
Proof.
  induction e as [Val|Name|Op LHS RHS IHL IHR|Callee Args IH]
    using ExprAST_nested_ind; intros s v s' H.
  - injection H as <- <-. apply codegen_frame_refl.
  - simpl in H. injection H as H.
    pose proof (VariableExprAST_codegen_frame Name s) as Hf.
    rewrite H in Hf. exact Hf.
  - rewrite codegen_BinaryExprAST_eq in H.
    destruct (codegen LHS s) as [[L s1]|] eqn:EL; [|discriminate].
    destruct (codegen RHS s1) as [[R s2]|] eqn:ER; [|discriminate].
    apply IHL in EL. apply IHR in ER.
    pose proof (codegen_frame_trans _ _ _ EL ER) as H12.
    destruct L as [l|], R as [r|];
      [|injection H as <- <-; exact H12..].
    injection H as H.
    eapply codegen_frame_trans; [exact H12|].
    pose proof (BinaryExprAST_emit_frame Op l r s2) as He.
    rewrite H in He. exact He.
  - destruct (TheModule s) as [M|] eqn:HM;
      [|rewrite (codegen_CallExprAST_null_module _ _ _ HM) in H; discriminate].
    rewrite (codegen_CallExprAST_args _ _ _ _ HM) in H.
    destruct (getFunction M Callee) as [CalleeF|].
    + destruct (negb (arg_size CalleeF =? length Args)%nat).
      * injection H as <- <-. apply LogErrorV_frame.
      * destruct (codegen_args Args [] s) as [[[ArgsV|] s1]|] eqn:EA;
          [| |discriminate].
        -- apply (codegen_args_frame _ IH) in EA. injection H as <- <-.
           eapply codegen_frame_trans; [exact EA|apply Builder_Insert_frame].
        -- injection H as <- <-. eapply codegen_args_frame; eassumption.
    + injection H as <- <-. apply LogErrorV_frame.
Qed.

(** X13. Code generation only adds. When [codegen] returns, the variables of
    the lexer and of the parser, [stdout] and the module are what they
    were; the instructions before are a prefix of the instructions after,
    and so for the lines of [stderr]; every entry of the table of named
    values is kept, and the only new entries are names bound to null. *)
Theorem codegen_only_adds (e : ExprAST) (s : State) (v : option Value)
    (s' : State) :
  codegen e s = Some (v, s') -> codegen_frame s s'.
Proof. apply codegen_keeps. Qed.

(** ** Code generator: null means diagnosed *)

Lemma codegen_args_diagnosed (Args : list ExprAST) :
  Forall (fun e => forall s v s', codegen e s = Some (v, s') ->
            exists d, stderr s' = stderr s ++ d /\ (v = None <-> d <> []))
         Args ->
  forall ArgsV s r s',
    codegen_args Args ArgsV s = Some (r, s') ->
    exists d, stderr s' = stderr s ++ d /\ (r = None <-> d <> []).
Proof.
  induction 1 as [|a Args Ha _ IH]; intros ArgsV s r s' H.
  - injection H as <- <-. exists []. rewrite app_nil_r.
    split; [reflexivity|]. split; [discriminate|congruence].
  - rewrite codegen_args_cons in H.
    destruct (codegen a s) as [[[v|] s1]|] eqn:E; [| |discriminate].
    + apply Ha in E. destruct E as (d1 & E1 & Hv).
      assert (d1 = []) as ->.
      { destruct d1; [reflexivity|]. exfalso.
        assert (Some v = None) by (apply Hv; discriminate). discriminate. }
      rewrite app_nil_r in E1. apply IH in H. rewrite E1 in H. exact H.
    + injection H as <- <-. apply Ha in E. destruct E as (d & E1 & Hv).
      exists d. split; [exact E1|].
      split; [intros _; apply Hv; reflexivity|reflexivity].
Qed.

Lemma codegen_diagnosed (e : ExprAST) :
  forall s v s', codegen e s = Some (v, s') ->
    exists d, stderr s' = stderr s ++ d /\ (v = None <-> d <> []).
Proof.
  induction e as [Val|Name|Op LHS RHS IHL IHR|Callee Args IH]
    using ExprAST_nested_ind; intros s v s' H.
  - injection H as <- <-. exists []. rewrite app_nil_r.
    split; [reflexivity|]. split; [discriminate|congruence].
  - simpl in H. injection H as H.
    unfold VariableExprAST_codegen, map_subscript in H.
    destruct (NamedValues s !! Name) as [[x|]|]; injection H as <- <-; simpl.
    + exists []. rewrite app_nil_r.
      split; [reflexivity|]. split; [discriminate|congruence].
    + eexists. split; [reflexivity|]. split; [discriminate|reflexivity].
    + eexists. split; [reflexivity|]. split; [discriminate|reflexivity].
  - rewrite codegen_BinaryExprAST_eq in H.
    destruct (codegen LHS s) as [[L s1]|] eqn:EL; [|discriminate].
    destruct (codegen RHS s1) as [[R s2]|] eqn:ER; [|discriminate].
    apply IHL in EL. apply IHR in ER.
    destruct EL as (d1 & E1 & H1), ER as (d2 & E2 & H2).
    assert (E12 : stderr s2 = stderr s ++ (d1 ++ d2))
      by (rewrite E2, E1, app_assoc; reflexivity).
    destruct L as [l|], R as [r|].
    + assert (d1 = []) as ->.
      { destruct d1; [reflexivity|].
        assert (Some l = None) by (apply H1; discriminate). discriminate. }
      assert (d2 = []) as ->.
      { destruct d2; [reflexivity|].
        assert (Some r = None) by (apply H2; discriminate). discriminate. }
      simpl in E12. rewrite app_nil_r in E12.
      injection H as H. unfold BinaryExprAST_emit, Builder_Insert in H.
      repeat match type of H with
        | context [if ?b then _ else _] => destruct b
        end; injection H as <- <-; simpl; rewrite E12.
      1-4: exists []; rewrite app_nil_r; split; [reflexivity|];
           split; [discriminate|congruence].
      eexists. split; [reflexivity|]. split; [discriminate|reflexivity].
    + injection H as <- <-. exists (d1 ++ d2). split; [exact E12|].
      split; [intros _|reflexivity]. intros E.
      apply app_eq_nil in E. destruct E as [_ E].
      apply (proj1 H2 eq_refl E).
    + injection H as <- <-. exists (d1 ++ d2). split; [exact E12|].
      split; [intros _|reflexivity]. intros E.
      apply app_eq_nil in E. destruct E as [E _].
      apply (proj1 H1 eq_refl E).
    + injection H as <- <-. exists (d1 ++ d2). split; [exact E12|].
      split; [intros _|reflexivity]. intros E.
      apply app_eq_nil in E. destruct E as [E _].
      apply (proj1 H1 eq_refl E).
  - destruct (TheModule s) as [M|] eqn:HM;
      [|rewrite (codegen_CallExprAST_null_module _ _ _ HM) in H; discriminate].
    rewrite (codegen_CallExprAST_args _ _ _ _ HM) in H.
    destruct (getFunction M Callee) as [CalleeF|].
    + destruct (negb (arg_size CalleeF =? length Args)%nat).
      * injection H as <- <-. eexists. split; [reflexivity|].
        split; [discriminate|reflexivity].
      * destruct (codegen_args Args [] s) as [[[ArgsV|] s1]|] eqn:EA;
          [| |discriminate];
          apply (codegen_args_diagnosed _ IH) in EA;
          destruct EA as (d & Ed & Hd); injection H as <- <-.
        -- exists d. split; [exact Ed|].
           split; [discriminate|]. intros Hne.
           assert (Some ArgsV = None) by (apply Hd, Hne). discriminate.
        -- exists d. split; [exact Ed|]. split; [intros _|reflexivity].
           apply Hd. reflexivity.
    + injection H as <- <-. eexists. split; [reflexivity|].
      split; [discriminate|reflexivity].
Qed.

(** X14. A null result is a diagnosed one. When [codegen] returns, it has
    returned the null pointer if and only if it has written at least one
    line to [stderr]; a value that is not null comes with no diagnostic
    at all. *)
Theorem codegen_null_iff_diagnosed (e : ExprAST) (s : State)
    (v : option Value) (s' : State) :
  codegen e s = Some (v, s') ->
  (v = None <-> stderr s' <> stderr s) /\
  (v <> None -> stderr s' = stderr s).
Proof.
  intros H. apply codegen_diagnosed in H. destruct H as (d & E & Hd).
  assert (Hs : stderr s' = stderr s <-> d = []).
  { rewrite E. split.
    - intros H. rewrite <- (app_nil_r (stderr s)) in H at 2.
      apply app_inv_head in H. exact H.
    - intros ->. apply app_nil_r. }
  split.
  - rewrite Hd, Hs. reflexivity.
  - intros Hv. apply Hs. destruct d; [reflexivity|].
    exfalso. apply Hv, Hd. discriminate.
Qed.

(** ** Code generator: the expressions it accepts *)

Lemma set_NamedValues_same (s : State) :
  set_NamedValues (NamedValues s) s = s.
Proof. destruct s; reflexivity. Qed.

Lemma BinaryExprAST_emit_valid (Op : Z) (l r : Value) (s : State) :
  ((Op =? ch "+") || (Op =? ch "-") || (Op =? ch "*") || (Op =? ch "<"))%bool
    = true ->
  exists v s',
    BinaryExprAST_emit Op l r s = (Some v, s') /\
    stderr s' = stderr s /\ NamedValues s' = NamedValues s /\
    TheModule s' = TheModule s /\
    length (Builder s') =
      (length (Builder s) + (if (Op =? ch "<")%Z then 2 else 1))%nat.
Proof.
  intros Hop. unfold BinaryExprAST_emit, Builder_Insert.
  destruct (Op =? ch "+") eqn:E1.
  { apply Z.eqb_eq in E1. subst Op. do 2 eexists.
    split; [reflexivity|]. simpl. rewrite length_app. auto. }
  destruct (Op =? ch "-") eqn:E2.
  { apply Z.eqb_eq in E2. subst Op. do 2 eexists.
    split; [reflexivity|]. simpl. rewrite length_app. auto. }
  destruct (Op =? ch "*") eqn:E3.
  { apply Z.eqb_eq in E3. subst Op. do 2 eexists.
    split; [reflexivity|]. simpl. rewrite length_app. auto. }
  destruct (Op =? ch "<") eqn:E4; [|discriminate Hop].
  do 2 eexists. split; [reflexivity|]. simpl.
  rewrite !length_app. simpl. repeat split. lia.
Qed.

Lemma BinaryExprAST_emit_value (Op : Z) (l r : Value) (s : State)
    (v : Value) (s' : State) :
  BinaryExprAST_emit Op l r s = (Some v, s') ->
  ((Op =? ch "+") || (Op =? ch "-") || (Op =? ch "*") || (Op =? ch "<"))%bool
    = true.
Proof.
  unfold BinaryExprAST_emit.
  destruct (Op =? ch "+"); [reflexivity|].
  destruct (Op =? ch "-"); [reflexivity|].
  destruct (Op =? ch "*"); [reflexivity|].
  destruct (Op =? ch "<"); [reflexivity|]. discriminate.
Qed.

Lemma codegen_args_accepts (Args : list ExprAST) :
  Forall (fun e => forall s,
            well_formed (TheModule s) (NamedValues s) e = true ->
            exists v s',
              codegen e s = Some (Some v, s') /\
              stderr s' = stderr s /\ NamedValues s' = NamedValues s /\
              TheModule s' = TheModule s /\
              length (Builder s') =
                (length (Builder s) + instruction_count e)%nat) Args ->
  forall ArgsV s,
    forallb (well_formed (TheModule s) (NamedValues s)) Args = true ->
    exists vs s',
      codegen_args Args ArgsV s = Some (Some vs, s') /\
      stderr s' = stderr s /\ NamedValues s' = NamedValues s /\
      TheModule s' = TheModule s /\
      length (Builder s') =
        (length (Builder s) +
         foldr (fun a n => instruction_count a + n) 0 Args)%nat.
Proof.
  induction 1 as [|a Args Ha _ IH]; intros ArgsV s Hwf.
  - exists ArgsV, s. simpl. repeat split; auto.
  - simpl in Hwf. apply andb_true_iff in Hwf. destruct Hwf as [Hwa Hwr].
    destruct (Ha s Hwa) as (v & s1 & E1 & He & Hn & Hm & Hb).
    rewrite codegen_args_cons, E1.
    rewrite <- Hn, <- Hm in Hwr.
    destruct (IH (ArgsV ++ [v]) s1 Hwr) as (vs & s2 & E2 & He2 & Hn2 & Hm2 & Hb2).
    exists vs, s2. split; [exact E2|]. simpl.
    repeat split; try congruence. lia.
Qed.

Lemma well_formed_is_accepted (e : ExprAST) :
  forall s,
    well_formed (TheModule s) (NamedValues s) e = true ->
    exists v s',
      codegen e s = Some (Some v, s') /\
      stderr s' = stderr s /\ NamedValues s' = NamedValues s /\
      TheModule s' = TheModule s /\
      length (Builder s') = (length (Builder s) + instruction_count e)%nat.
Proof.
  induction e as [Val|Name|Op LHS RHS IHL IHR|Callee Args IH]
    using ExprAST_nested_ind; intros s Hwf.
  - exists (ConstantFP Val), s. simpl. repeat split; auto.
  - simpl in Hwf.
    destruct (NamedValues s !! Name) as [[x|]|] eqn:Hn; try discriminate.
    exists x, s. simpl. unfold VariableExprAST_codegen, map_subscript.
    rewrite Hn, set_NamedValues_same. repeat split; auto.
  - simpl in Hwf. apply andb_true_iff in Hwf. destruct Hwf as [Hwf Hop].
    apply andb_true_iff in Hwf. destruct Hwf as [Hwl Hwr].
    destruct (IHL s Hwl) as (l & s1 & E1 & He1 & Hn1 & Hm1 & Hb1).
    rewrite <- Hn1, <- Hm1 in Hwr.
    destruct (IHR s1 Hwr) as (r & s2 & E2 & He2 & Hn2 & Hm2 & Hb2).
    destruct (BinaryExprAST_emit_valid Op l r s2 Hop)
      as (v & s3 & E3 & He3 & Hn3 & Hm3 & Hb3).
    exists v, s3. rewrite codegen_BinaryExprAST_eq, E1, E2, E3.
    split; [reflexivity|]. simpl. repeat split; try congruence. lia.
  - simpl in Hwf. destruct (TheModule s) as [M|] eqn:HM; [|discriminate].
    destruct (getFunction M Callee) as [CalleeF|] eqn:HF; [|discriminate].
    apply andb_true_iff in Hwf. destruct Hwf as [Har Hwa].
    rewrite <- HM in Hwa.
    destruct (codegen_args_accepts _ IH [] s Hwa)
      as (vs & s1 & E1 & He1 & Hn1 & Hm1 & Hb1).
    rewrite (codegen_CallExprAST_args _ _ _ _ HM), HF, Har, E1. simpl.
    do 2 eexists. split; [reflexivity|]. simpl.
    rewrite length_app. simpl. repeat split; try congruence. lia.
Qed.

Lemma codegen_args_value (Args : list ExprAST) :
  Forall (fun e => forall s v s',
            codegen e s = Some (Some v, s') ->
            well_formed (TheModule s) (NamedValues s) e = true /\
            NamedValues s' = NamedValues s /\ TheModule s' = TheModule s)
         Args ->
  forall ArgsV s vs s',
    codegen_args Args ArgsV s = Some (Some vs, s') ->
    forallb (well_formed (TheModule s) (NamedValues s)) Args = true /\
    NamedValues s' = NamedValues s /\ TheModule s' = TheModule s.
Proof.
  induction 1 as [|a Args Ha _ IH]; intros ArgsV s vs s' H.
  - injection H as <- <-. auto.
  - rewrite codegen_args_cons in H.
    destruct (codegen a s) as [[[v|] s1]|] eqn:E; try discriminate.
    apply Ha in E. destruct E as (Hwa & Hn & Hm).
    apply IH in H. destruct H as (Hwr & Hn2 & Hm2).
    rewrite Hn, Hm in Hwr. simpl. rewrite Hwa, Hwr.
    repeat split; congruence.
Qed.

Lemma codegen_value_well_formed (e : ExprAST) :
  forall s v s',
    codegen e s = Some (Some v, s') ->
    well_formed (TheModule s) (NamedValues s) e = true /\
    NamedValues s' = NamedValues s /\ TheModule s' = TheModule s.
Proof.
  induction e as [Val|Name|Op LHS RHS IHL IHR|Callee Args IH]
    using ExprAST_nested_ind; intros s v s' H.
  - injection H as <- <-. auto.
  - simpl in H. injection H as H.
    unfold VariableExprAST_codegen, map_subscript in H. simpl.
    destruct (NamedValues s !! Name) as [[x|]|]; try discriminate H.
    injection H as <- <-. simpl. auto.
  - rewrite codegen_BinaryExprAST_eq in H.
    destruct (codegen LHS s) as [[[l|] s1]|] eqn:EL; try discriminate;
      destruct (codegen RHS s1) as [[[r|] s2]|] eqn:ER; try discriminate.
    injection H as H.
    apply IHL in EL. apply IHR in ER.
    destruct EL as (Hwl & Hn1 & Hm1), ER as (Hwr & Hn2 & Hm2).
    rewrite Hn1, Hm1 in Hwr. simpl.
    rewrite Hwl, Hwr, (BinaryExprAST_emit_value _ _ _ _ _ _ H).
    pose proof (BinaryExprAST_emit_frame Op l r s2) as Hf.
    rewrite H in Hf. simpl in Hf.
    assert (Hn3 : NamedValues s' = NamedValues s2).
    { clear - H. unfold BinaryExprAST_emit, Builder_Insert, LogErrorV, LogError in H.
      repeat match type of H with
        | context [if ?b then _ else _] => destruct b
        end; injection H as _ <-; reflexivity. }
    destruct Hf as ((_ & _ & _ & _ & _ & _ & _ & Hm3) & _).
    repeat split; congruence.
  - destruct (TheModule s) as [M|] eqn:HM;
      [|rewrite (codegen_CallExprAST_null_module _ _ _ HM) in H; discriminate].
    rewrite (codegen_CallExprAST_args _ _ _ _ HM) in H. simpl.
    destruct (getFunction M Callee) as [CalleeF|]; [|discriminate].
    destruct (arg_size CalleeF =? length Args)%nat; [|discriminate].
    simpl in H.
    destruct (codegen_args Args [] s) as [[[ArgsV|] s1]|] eqn:EA;
      try discriminate.
    apply (codegen_args_value _ IH) in EA. destruct EA as (Hwa & Hn & Hm).
    injection H as <- <-. rewrite HM in Hwa. simpl.
    repeat split; congruence.
Qed.

(** X15. Acceptance. [codegen] returns a value that is not null exactly for
    the well-formed expressions: variables bound to a value, operators
    among the four, calls of functions of the module with the right
    number of arguments. It then writes no diagnostic, leaves the table
    of named values as it is, and inserts one instruction for each
    arithmetic operator and each call and two for each comparison. *)
Theorem codegen_accepts (e : ExprAST) (s : State) :
  (well_formed (TheModule s) (NamedValues s) e = true <->
   exists v s', codegen e s = Some (Some v, s')) /\
  (forall v s', codegen e s = Some (Some v, s') ->
     stderr s' = stderr s /\ NamedValues s' = NamedValues s /\
     length (Builder s') = (length (Builder s) + instruction_count e)%nat).
Proof.
  split.
  - split.
    + intros Hwf.
      destruct (well_formed_is_accepted e s Hwf) as (v & s' & E & _).
      eauto.
    + intros (v & s' & E). eapply codegen_value_well_formed, E.
  - intros v s' E.
    pose proof (codegen_value_well_formed e s v s' E) as (Hwf & _).
    destruct (well_formed_is_accepted e s Hwf)
      as (v0 & s0 & E0 & He & Hn & _ & Hb).
    rewrite E in E0. injection E0 as -> ->. auto.
Qed.

(** ** The operators of a run *)

Lemma main_table_default (input : string) (k : Z) :
  default 0 (BinopPrecedence (entering_MainLoop input) !! k) =
  if k =? ch "*" then 40
  else if k =? ch "-" then 20
  else if k =? ch "+" then 20
  else if k =? ch "<" then 10
  else 0.
Proof.
  assert (Hb : BinopPrecedence (entering_MainLoop input) =
               <[ch "*" := 40]> (<[ch "-" := 20]> (<[ch "+" := 20]>
                 (<[ch "<" := 10]> ∅)))).
  { unfold entering_MainLoop.
    destruct (getNextToken (put_stdout "ready> "
                (install_precedences (start input)))) as [t s1] eqn:N.
    apply getNextToken_spec in N. simpl. destruct N as (_ & -> & _).
    reflexivity. }
  rewrite Hb.
  destruct (k =? ch "*") eqn:E1.
  { apply Z.eqb_eq in E1. subst k. rewrite lookup_insert_eq. reflexivity. }
  apply Z.eqb_neq in E1. rewrite lookup_insert_ne by congruence.
  destruct (k =? ch "-") eqn:E2.
  { apply Z.eqb_eq in E2. subst k. rewrite lookup_insert_eq. reflexivity. }
  apply Z.eqb_neq in E2. rewrite lookup_insert_ne by congruence.
  destruct (k =? ch "+") eqn:E3.
  { apply Z.eqb_eq in E3. subst k. rewrite lookup_insert_eq. reflexivity. }
  apply Z.eqb_neq in E3. rewrite lookup_insert_ne by congruence.
  destruct (k =? ch "<") eqn:E4.
  { apply Z.eqb_eq in E4. subst k. rewrite lookup_insert_eq. reflexivity. }
  apply Z.eqb_neq in E4. rewrite lookup_insert_ne by congruence.
  reflexivity.
Qed.

Lemma run_table_default (input : string) (s : State) :
  rtc parsing_step (entering_MainLoop input) s ->
  forall k, default 0 (BinopPrecedence s !! k) =
            default 0 (BinopPrecedence (entering_MainLoop input) !! k).
Proof.
  intros Hrun. revert s Hrun. apply (rtc_ind_r (fun s => forall k, _ = _)).
  - reflexivity.
  - intros s1 s2 _ (op & fuel & Hop) IH k.
    apply state_after_frame in Hop. destruct Hop as (Ht & _).
    rewrite (table_grows_by_zeros_default _ _ k Ht). apply IH.
Qed.

(** X11. The operators of a run. In every state the program reaches from
    the start of [MainLoop] by operations of the parser, whatever the
    input, [GetTokPrecedence] answers 10 for '<', 20 for '+' and '-', 40
    for '*' and -1 for every other token: these four characters are the
    binary operators, and no input makes another one. *)
Theorem operators_of_a_run (input : string) (s : State) :
  rtc parsing_step (entering_MainLoop input) s ->
  forall tok,
    fst (GetTokPrecedence (set_CurTok tok s)) = main_precedence tok.
Proof.
  intros Hrun tok. rewrite GetTokPrecedence_fst. simpl.
  unfold main_precedence.
  destruct (isascii tok) eqn:Ha; simpl.
  - rewrite (char_of_int_ascii _ Ha).
    rewrite (run_table_default input s Hrun), main_table_default.
    destruct (tok =? ch "*") eqn:E1.
    { apply Z.eqb_eq in E1. subst tok. reflexivity. }
    destruct (tok =? ch "-") eqn:E2.
    { apply Z.eqb_eq in E2. subst tok. reflexivity. }
    destruct (tok =? ch "+") eqn:E3.
    { apply Z.eqb_eq in E3. subst tok. reflexivity. }
    destruct (tok =? ch "<") eqn:E4; reflexivity.
  - destruct (tok =? ch "<") eqn:E4.
    { apply Z.eqb_eq in E4. subst tok. discriminate Ha. }
    destruct (tok =? ch "+") eqn:E3.
    { apply Z.eqb_eq in E3. subst tok. discriminate Ha. }
    destruct (tok =? ch "-") eqn:E2.
    { apply Z.eqb_eq in E2. subst tok. discriminate Ha. }
    destruct (tok =? ch "*") eqn:E1.
    { apply Z.eqb_eq in E1. subst tok. discriminate Ha. }
    reflexivity.
Qed.

(** ** Declaring a function and calling it *)



(** ** Parser: a chain of operators of one precedence *)

Lemma ParseBinOpRHS_after_lookup (fuel : nat) (ExprPrec : Z) (LHS : ExprAST)
    (s : State) :
  ParseBinOpRHS fuel ExprPrec LHS (snd (GetTokPrecedence s)) =
  ParseBinOpRHS fuel ExprPrec LHS s.
Proof.
  destruct fuel as [|fuel]; [reflexivity|].
  rewrite !ParseBinOpRHS_S, GetTokPrecedence_again. reflexivity.
Qed.

Lemma operand_chain_next (fuel : nat) (p : Z) (s : State)
    (chain : list (Z * ExprAST)) (s' : State) :
  operand_chain fuel s chain s' -> 0 < p ->
  Forall (fun x => isascii (fst x) = true /\
                   BinopPrecedence s !! fst x = Some p) chain ->
  fst (GetTokPrecedence s) <= p.
Proof.
  intros Hc Hp Hall. destruct Hc as [s H|s op rhs s1 rest s' Hop _ _].
  - lia.
  - apply Forall_cons in Hall. destruct Hall as [[Ha Ht] _]. simpl in *.
    rewrite (GetTokPrecedence_operator s p); rewrite ?Hop; auto.
    simpl. lia.
Qed.

(** X12. Left association at any length. When the operators ahead all have
    the same positive precedence, at least the minimum asked for,
    [ParseBinOpRHS] folds the whole chain onto the left operand:
    [a op1 b op2 c op3 d ...] becomes [(((a op1 b) op2 c) op3 d) ...],
    and it stops at the first token that is no operator. *)
Theorem ParseBinOpRHS_left_chain (fuel : nat) (p ExprPrec : Z)
    (chain : list (Z * ExprAST)) (s s' : State) (LHS : ExprAST) :
  operand_chain fuel s chain s' ->
  Forall (fun x => isascii (fst x) = true /\
                   BinopPrecedence s !! fst x = Some p) chain ->
  0 < p -> 0 <= ExprPrec <= p ->
  ParseBinOpRHS (fuel + length chain + 1) ExprPrec LHS s =
    Some (Some (left_nested LHS chain), snd (GetTokPrecedence s')).
Proof.
  intros Hc Hall Hp HE. revert LHS Hall.
  induction Hc as [s Hend|s op rhs s1 rest s' Hop Hrhs Hc IH];
    intros LHS Hall.
  - replace (fuel + length (@nil (Z * ExprAST)) + 1)%nat with (S fuel)
      by (simpl; lia).
    destruct (GetTokPrecedence_not_operator s Hend) as (G & _).
    rewrite ParseBinOpRHS_S, G.
    replace (-1 <? ExprPrec) with true by (symmetry; apply Z.ltb_lt; lia).
    reflexivity.
  - apply Forall_cons in Hall. destruct Hall as [[Ha Ht] Hall]. simpl in Ha, Ht.
    replace (fuel + length ((op, rhs) :: rest) + 1)%nat
      with (S (fuel + length rest + 1)) by (simpl; lia).
    assert (G : GetTokPrecedence s = (p, s)).
    { apply GetTokPrecedence_operator; rewrite ?Hop; auto. }
    rewrite ParseBinOpRHS_S, G.
    replace (p <? ExprPrec) with false by (symmetry; apply Z.ltb_ge; lia).
    cbv zeta. rewrite Hop.
    pose proof (snd_getNextToken_frame s) as (T0 & _).
    destruct (getNextToken s) as [t s0] eqn:N. cbn [snd] in Hrhs, T0.
    rewrite (ParsePrimary_fuel_le fuel (fuel + length rest + 1) _ _
               ltac:(lia) Hrhs).
    pose proof (ParsePrimary_frame _ _ _ _ Hrhs) as (T1 & _).
    pose proof (table_grows_by_zeros_trans _ _ _ T0 T1) as T.
    assert (Hall1 : Forall (fun x => isascii (fst x) = true /\
                              BinopPrecedence s1 !! fst x = Some p) rest).
    { eapply Forall_impl; [exact Hall|]. intros [o r] [Hao Hto].
      split; [exact Hao|]. simpl in *.
      destruct (T o) as [E|[N0 _]]; congruence. }
    pose proof (operand_chain_next _ p _ _ _ Hc Hp Hall1) as Hnext.
    destruct (GetTokPrecedence s1) as [NextPrec s4] eqn:G1.
    simpl in Hnext.
    replace (p <? NextPrec) with false by (symmetry; apply Z.ltb_ge; lia).
    rewrite (char_of_int_ascii _ Ha).
    replace s4 with (snd (GetTokPrecedence s1)) by (rewrite G1; reflexivity).
    rewrite ParseBinOpRHS_after_lookup.
    apply IH, Hall1.
Qed.

(** ** Parser: the input is only consumed *)

Lemma getNextToken_suffix (s : State) (t : Z) (s' : State) :
  getNextToken s = (t, s') -> exists consumed, stdin s = consumed +:+ stdin s'.
Proof.
  unfold getNextToken. destruct (gettok s) as [t0 s0] eqn:Hg.
  intros [= <- <-]. simpl.
  destruct (Z.eq_dec (LastChar s) EOF) as [HE|HE].
  - rewrite (gettok_at_end s HE) in Hg. injection Hg as _ <-.
    exists EmptyString. reflexivity.
  - apply gettok_rec_gettok in Hg.
    destruct (gettok_rec_reads _ _ _ _ Hg HE) as [Hr _].
    eapply reads_suffix, Hr.
Qed.

Lemma GetTokPrecedence_stdin (s : State) (p : Z) (s' : State) :
  GetTokPrecedence s = (p, s') -> stdin s' = stdin s.
Proof.
  unfold GetTokPrecedence. destruct (negb (isascii (CurTok s))).
  - intros [= <- <-]. auto.
  - destruct (map_subscript 0 (BinopPrecedence s) (char_of_int (CurTok s)))
      as [TokPrec m].
    destruct (TokPrec <=? 0); intros [= <- <-]; auto.
Qed.

(** X5. Parsing only consumes. Whatever operation of the parser or of the
    top level has run, the unread input afterwards is a rest of the
    unread input before (nothing is put back), the distance to the end
    of the input has not grown, and the lookahead still agrees with the
    lexer if it did before. *)
Theorem parsing_consumes (op : ParsingOperation) (fuel : nat) (s s' : State) :
  state_after op fuel s = Some s' ->
  (exists consumed, stdin s = consumed +:+ stdin s') /\
  (parser_measure s' <= parser_measure s)%nat /\
  (lookahead_ok s -> lookahead_ok s').
Proof.
  intros H. split; [|split].
  - revert H.
    apply (state_after_steps
             (fun s s' => exists consumed, stdin s = consumed +:+ stdin s')).
    + intros s0. exists EmptyString. reflexivity.
    + intros s1 s2 s3 [c1 E1] [c2 E2]. exists (c1 +:+ c2).
      rewrite E1, E2, append_assoc. reflexivity.
    + apply getNextToken_suffix.
    + intros s0 p s0' Hg. apply GetTokPrecedence_stdin in Hg.
      exists EmptyString. rewrite Hg. reflexivity.
    + intros v s0. exists EmptyString. reflexivity.
    + intros v s0. exists EmptyString. reflexivity.
  - eapply state_after_measure, H.
  - eapply state_after_lookahead_ok, H.
Qed.

End Kaleidoscope.

(** * Instances

    The theorems at concrete inputs, with [numeral_text] for [strtod]. *)

Lemma gettok_eof_stable_witness :
  let s0 := start string numeral_text "" in
  let s1 := snd (gettok string numeral_text s0) in
  let s2 := snd (gettok string numeral_text (start string numeral_text "a;")) in
  let s3 := snd (gettok string numeral_text s2) in
  gettok_iter string numeral_text 3 s1 = (replicate 3 tok_eof, s1) /\
  gettok_iter string numeral_text 2 s1 = (replicate 2 tok_eof, s1) /\
  gettok_iter string numeral_text 3 s3 = (replicate 3 tok_eof, s3).
Proof.
  intros s0 s1 s2 s3. split; [|split].
  - apply (proj1 (gettok_eof_stable string numeral_text s1)).
    vm_compute. reflexivity.
  - apply (proj1 (proj2 (gettok_eof_stable string numeral_text s0)) s1).
    vm_compute. reflexivity.
  - apply (proj2 (proj2 (gettok_eof_stable string numeral_text s2))
             (ch ";") s3); vm_compute; reflexivity.
Defined.

Lemma ParseExpression_two_operators_witness :
  (exists s',
     ParseExpression string numeral_text 5
       (entering_MainLoop string numeral_text "x+y*z") =
     Some (Some (BinaryExprAST string (ch "+") (VariableExprAST string "x")
                   (BinaryExprAST string (ch "*") (VariableExprAST string "y")
                      (VariableExprAST string "z"))), s')) /\
  (exists s',
     ParseExpression string numeral_text 9
       (entering_MainLoop string numeral_text "x-(y)-f(z)") =
     Some (Some (BinaryExprAST string (ch "-")
                   (BinaryExprAST string (ch "-") (VariableExprAST string "x")
                      (VariableExprAST string "y"))
                   (CallExprAST string "f" [VariableExprAST string "z"])), s')).
Proof.
  split; eexists.
  - eapply eq_trans;
      [eapply (ParseExpression_two_operators string numeral_text 2 _ _ _ _ _ _ _
                 (ch "+") (ch "*") 20 40)|];
      try (vm_compute; reflexivity); try lia.
  - eapply eq_trans;
      [eapply (ParseExpression_two_operators string numeral_text 6 _ _ _ _ _ _ _
                 (ch "-") (ch "-") 20 20)|];
      try (vm_compute; reflexivity); try lia.
Defined.

(** C4 fails as it is stated: after [main] has stored the precedences,
    parsing the expression of the input "x;" looks up ';' in
    [ParseBinOpRHS], and the table has an entry more when it returns. *)
Lemma GetTokPrecedence_changes_table :
  let s := entering_MainLoop string numeral_text "x;" in
  exists s',
    ParseExpression string numeral_text 3 s =
      Some (Some (VariableExprAST string "x"), s') /\
    BinopPrecedence string s !! ch ";" = None /\
    BinopPrecedence string s' !! ch ";" = Some 0 /\
    BinopPrecedence string s' <> BinopPrecedence string s.
Proof.
  eexists. split; [vm_compute; reflexivity|].
  split; [vm_compute; reflexivity|]. split; [vm_compute; reflexivity|].
  intros H. apply (f_equal (fun m : gmap Z Z => m !! ch ";")) in H.
  vm_compute in H. discriminate H.
Defined.

Lemma parsing_keeps_precedences_witness :
  let s := entering_MainLoop string numeral_text "(x);" in
  exists s',
    state_after string numeral_text (DoParseExpression string) 6 s = Some s' /\
    BinopPrecedence string s' !! ch ")" = Some 0 /\
    (forall k p, BinopPrecedence string s !! k = Some p ->
                 BinopPrecedence string s' !! k = Some p) /\
    (forall tok,
       fst (GetTokPrecedence string (set_CurTok string tok s')) =
       fst (GetTokPrecedence string (set_CurTok string tok s))).
Proof.
  eexists. split; [vm_compute; reflexivity|].
  split; [vm_compute; reflexivity|].
  eapply (parsing_keeps_precedences string numeral_text
            (DoParseExpression string) 6).
  vm_compute. reflexivity.
Defined.

(** C2 fails as it is stated: with an empty module in place, the
    definition of foo is parsed and reported, and afterwards the module
    has no function foo, the parameters a and b are not in the table of
    named values, and no instruction has been generated. *)
Lemma FunctionAST_is_not_generated :
  let s := set_TheModule string (Some [])
             (entering_MainLoop string numeral_text "def foo(a b) a*a+b*b;") in
  exists F s1 s',
    ParseDefinition string numeral_text 6 s = Some (Some F, s1) /\
    ProtoName (Proto string F) = "foo" /\
    ProtoArgs (Proto string F) = ["a"; "b"] /\
    HandleDefinition string numeral_text 6 s = Some s' /\
    ~ (exists M Fn, TheModule string s' = Some M /\
                    getFunction M "foo" = Some Fn) /\
    NamedValues string s' !! "a" = None /\
    NamedValues string s' !! "b" = None /\
    Builder string s' = [].
Proof.
  eexists. eexists. eexists.
  split; [vm_compute; reflexivity|].
  split; [reflexivity|]. split; [reflexivity|].
  split; [vm_compute; reflexivity|].
  split; [|repeat split; vm_compute; reflexivity].
  intros (M & Fn & HM & HF). vm_compute in HM.
  injection HM as <-. discriminate HF.
Defined.

Lemma HandleDefinition_only_parses_witness :
  let s := set_TheModule string (Some [])
             (entering_MainLoop string numeral_text "def foo(a b) a*a+b*b;") in
  exists s1,
    HandleDefinition string numeral_text 6 s =
      Some (put_stdout string ("Parsed a function definition." +:+ nl) s1) /\
    TheModule string s1 = TheModule string s /\
    Builder string s1 = Builder string s /\
    NamedValues string s1 = NamedValues string s.
Proof.
  eexists.
  eapply (HandleDefinition_only_parses string numeral_text 6).
  vm_compute. reflexivity.
Defined.

Lemma CallExprAST_codegen_arity_mismatch_witness :
  let sin := mkFunction (mkFunctionType DoubleTy [DoubleTy] false)
               ExternalLinkage "sin" in
  let s := set_TheModule string (Some [sin]) (start string numeral_text "") in
  exists s',
    codegen string
      (CallExprAST string "sin"
         [VariableExprAST string "x"; NumberExprAST string "2"]) s =
      Some (None, s') /\
    s' = put_stderr string
           ("LogError: Incorrect number of arguments passed." +:+ nl) s /\
    Builder string s' = Builder string s /\
    NamedValues string s' = NamedValues string s /\
    TheModule string s' = TheModule string s.
Proof.
  intros sin s.
  apply (CallExprAST_codegen_arity_mismatch string "sin" _ s [sin] sin).
  - reflexivity.
  - reflexivity.
  - cbv. lia.
Defined.

Lemma CallExprAST_codegen_unknown_function_witness :
  let sin := mkFunction (mkFunctionType DoubleTy [DoubleTy] false)
               ExternalLinkage "sin" in
  let s := set_TheModule string (Some [sin]) (start string numeral_text "") in
  exists s',
    codegen string (CallExprAST string "cos" [NumberExprAST string "2"]) s =
      Some (None, s') /\
    s' = put_stderr string ("LogError: unknown function referenced." +:+ nl) s /\
    Builder string s' = Builder string s.
Proof.
  intros sin s.
  apply (CallExprAST_codegen_unknown_function string "cos" _ s [sin]).
  - reflexivity.
  - reflexivity.
Defined.

Lemma BinaryExprAST_codegen_cases_witness :
  let s := start string numeral_text "" in
  let e := BinaryExprAST string (ch "<")
             (NumberExprAST string "1") (NumberExprAST string "2") in
  exists s3,
    codegen string e s = Some (Some (InstResult string 1), s3) /\
    Builder string s3 =
      [FCmpULT string (ConstantFP string "1") (ConstantFP string "2") "cmptmp";
       UIToFP string (InstResult string 0) DoubleTy "booltmp"] /\
    stderr string s3 = [].
Proof.
  intros s e.
  destruct (BinaryExprAST_codegen_cases string (ch "<")
              (NumberExprAST string "1") (NumberExprAST string "2")
              s s s (Some (ConstantFP string "1")) (Some (ConstantFP string "2"))
              eq_refl eq_refl) as [_ H].
  destruct (H _ _ eq_refl eq_refl) as (s3 & _ & _ & _ & Hlt & _).
  exists s3. exact (Hlt eq_refl).
Defined.

Lemma VariableExprAST_codegen_unbound_witness :
  let s := start string numeral_text "" in
  exists s',
    codegen string (VariableExprAST string "x") s = Some (None, s') /\
    NamedValues string s' = <[ "x" := None ]> (NamedValues string s) /\
    (NamedValues string s' !! "x" = Some None) /\
    ("x" ∉ dom (NamedValues string s)) /\
    dom (NamedValues string s') = {[ "x" ]} ∪ dom (NamedValues string s) /\
    stderr string s' =
      stderr string s ++ ["LogError: Unknown variable name" +:+ nl] /\
    Builder string s' = Builder string s.
Proof.
  intros s.
  apply (VariableExprAST_codegen_unbound string "x" s).
  reflexivity.
Defined.

(** C3 at a prototype: the function foo is in the module afterwards, and
    the caller of [PrototypeAST::codegen] has been handed nothing. *)
Example PrototypeAST_codegen_foo :
  let s := set_TheModule string (Some []) (start string numeral_text "") in
  let r := PrototypeAST_codegen string (mkPrototypeAST "foo" ["x"; "y"]) s in
  fst r = NoReturn /\
  TheModule string (snd r) =
    Some [mkFunction (mkFunctionType DoubleTy [DoubleTy; DoubleTy] false)
            ExternalLinkage "foo"].
Proof. split; reflexivity. Qed.

(** * Instances of the further properties *)

Lemma gettok_advances_witness :
  let s := start string numeral_text "def x" in
  let s' := snd (gettok string numeral_text s) in
  LastChar_ok string s' /\
  (lexer_measure string s' < lexer_measure string s)%nat.
Proof.
  intros s s'.
  destruct (gettok_advances string numeral_text s tok_def s')
    as (H1 & _ & _ & H4 & _).
  - vm_compute. reflexivity.
  - vm_compute. split; discriminate.
  - split; [exact H1|]. apply H4. discriminate.
Defined.

Lemma gettok_identifier_witness :
  let s := set_LastChar string (ch "e") (start string numeral_text "xtern(") in
  gettok string numeral_text s =
    (tok_extern,
     set_LastChar string (ch "(")
       (set_stdin string EmptyString (set_IdentifierStr string "extern" s))).
Proof.
  intros s.
  exact (gettok_identifier string numeral_text s "xtern" "("
           eq_refl eq_refl eq_refl eq_refl).
Defined.

Lemma gettok_number_witness :
  let s := set_LastChar string (ch "1") (start string numeral_text ".2.3+") in
  gettok string numeral_text s =
    (tok_number,
     set_NumVal string "1.2.3"
       (set_LastChar string (ch "+") (set_stdin string EmptyString s))).
Proof.
  intros s.
  exact (gettok_number string numeral_text s ".2.3" "+"
           eq_refl eq_refl eq_refl eq_refl).
Defined.

Lemma gettok_skips_witness :
  let s := start string numeral_text " x" in
  let c := set_LastChar string (ch "#")
             (start string numeral_text (" no" +:+ String "010"%char "x")) in
  gettok string numeral_text s =
    gettok string numeral_text
      (set_LastChar string (ch " ") (set_stdin string "x" s)) /\
  gettok string numeral_text c =
    gettok string numeral_text
      (set_LastChar string 10 (set_stdin string "x" c)).
Proof.
  intros s c. split.
  - apply (proj1 (gettok_skips string numeral_text s)). reflexivity.
  - apply (proj2 (gettok_skips string numeral_text c) " no"
             (String "010"%char "x")); reflexivity.
Defined.



Lemma operators_of_a_run_witness :
  let s := entering_MainLoop string numeral_text "(x);" in
  exists s',
    state_after string numeral_text (DoParseExpression string) 6 s = Some s' /\
    forall tok,
      fst (GetTokPrecedence string (set_CurTok string tok s')) =
      main_precedence tok.
Proof.
  intros s. eexists. split; [vm_compute; reflexivity|].
  apply (operators_of_a_run string numeral_text "(x);").
  apply rtc_once. exists (DoParseExpression string), 6%nat.
  vm_compute. reflexivity.
Defined.

Lemma ParseBinOpRHS_left_chain_witness :
  let s0 := entering_MainLoop string numeral_text "a-b+c-d" in
  exists s s',
    ParsePrimary string numeral_text 2 s0 =
      Some (Some (VariableExprAST string "a"), s) /\
    ParseBinOpRHS string numeral_text 6 0 (VariableExprAST string "a") s =
      Some (Some (BinaryExprAST string (ch "-")
                    (BinaryExprAST string (ch "+")
                       (BinaryExprAST string (ch "-")
                          (VariableExprAST string "a")
                          (VariableExprAST string "b"))
                       (VariableExprAST string "c"))
                    (VariableExprAST string "d")), s').
Proof.
  intros s0. do 2 eexists. split; [vm_compute; reflexivity|].
  eapply eq_trans;
    [eapply (ParseBinOpRHS_left_chain string numeral_text 2 20 0
               [(ch "-", VariableExprAST string "b");
                (ch "+", VariableExprAST string "c");
                (ch "-", VariableExprAST string "d")])|].
  - eapply operand_chain_step; [vm_compute; reflexivity..|].
    eapply operand_chain_step; [vm_compute; reflexivity..|].
    eapply operand_chain_step; [vm_compute; reflexivity..|].
    apply operand_chain_end. vm_compute. reflexivity.
  - repeat constructor; vm_compute; reflexivity.
  - lia.
  - lia.
  - vm_compute. reflexivity.
Defined.

Lemma parsing_consumes_witness :
  let s := entering_MainLoop string numeral_text "f(1, x) < 2; y" in
  exists s',
    state_after string numeral_text (DoHandleTopLevelExpr string) 12 s = Some s'
    /\ (exists consumed, stdin string s = consumed +:+ stdin string s') /\
    (parser_measure string s' <= parser_measure string s)%nat /\
    (lookahead_ok string s -> lookahead_ok string s').
Proof.
  intros s. eexists. split; [vm_compute; reflexivity|].
  apply (parsing_consumes string numeral_text (DoHandleTopLevelExpr string) 12).
  vm_compute. reflexivity.
Defined.

Lemma codegen_only_adds_witness :
  let s := start string numeral_text "" in
  let e := BinaryExprAST string (ch "+") (VariableExprAST string "x")
             (BinaryExprAST string (ch "*") (NumberExprAST string "2")
                (NumberExprAST string "3")) in
  exists v s', codegen string e s = Some (v, s') /\ codegen_frame string s s'.
Proof.
  intros s e. do 2 eexists. split; [vm_compute; reflexivity|].
  apply (codegen_only_adds string e s None). vm_compute. reflexivity.
Defined.

Lemma codegen_null_iff_diagnosed_witness :
  let s := start string numeral_text "" in
  let e := BinaryExprAST string (ch "+") (VariableExprAST string "x")
             (VariableExprAST string "y") in
  exists s',
    codegen string e s = Some (None, s') /\
    stderr string s' <> stderr string s.
Proof.
  intros s e. eexists. split; [vm_compute; reflexivity|].
  apply (proj1 (codegen_null_iff_diagnosed string e s None _
                  ltac:(vm_compute; reflexivity))).
  reflexivity.
Defined.

Lemma codegen_accepts_witness :
  let sin := mkFunction (mkFunctionType DoubleTy [DoubleTy] false)
               ExternalLinkage "sin" in
  let s := set_NamedValues string (<[ "x" := Some (Argument string 0) ]> ∅)
             (set_TheModule string (Some [sin]) (start string numeral_text "")) in
  let e := BinaryExprAST string (ch "<")
             (CallExprAST string "sin" [VariableExprAST string "x"])
             (BinaryExprAST string (ch "*") (VariableExprAST string "x")
                (NumberExprAST string "2")) in
  exists v s',
    codegen string e s = Some (Some v, s') /\
    stderr string s' = stderr string s /\
    NamedValues string s' = NamedValues string s /\
    length (Builder string s') = 4%nat.
Proof.
  intros sin s e.
  destruct (proj1 (proj1 (codegen_accepts string e s)) eq_refl)
    as (v & s' & E).
  exists v, s'. split; [exact E|].
  destruct (proj2 (codegen_accepts string e s) v s' E) as (He & Hn & Hb).
  split; [exact He|]. split; [exact Hn|]. exact Hb.
Defined.

